(** * RunFp: staging and execution of one first-principles task

    A shallow embedding of [PrepRunFp/RunFp/RunFp.py]: the context manager
    [set_directory] and the operator [RunFp.execute], over a model of the
    part of the POSIX file system that the code touches (directories,
    regular files, symbolic links, the process working directory). *)

From Stdlib Require Import Ascii.
From stdpp Require Import base option list strings gmap fin_maps.

Open Scope string_scope.
Open Scope list_scope.
Set Warnings "-register-all".


(** ** Python values, exceptions and results *)

(** The JSON-like values that travel in [config] and [optional_input]. *)
Inductive pyval :=
| PNone
| PBool (b : bool)
| PInt (z : Z)
| PStr (s : string)
| PList (l : list pyval)
| PDict (d : list (string * pyval)).

(** An absolute, normalised location: the components below the root. *)
Abbreviation path := (list string).

(** The exceptions that the code raises or lets through. *)
Inductive exn :=
| FatalError (msg : string)
| TransientError (msg : string)
| KeyError (key : string)
| AttributeError (msg : string)
| FileExistsError (p : path)
| FileNotFoundError (p : path)
| NotADirectoryError (p : path)
| TooManyLinks (p : path)           (* OSError, errno ELOOP *)
| DirectoryNotEmpty (p : path)      (* OSError, errno ENOTEMPTY *)
| RuntimeError (msg : string)
| ArgumentError (msg : string).     (* what dargs raises on a bad value *)

Inductive result (A : Type) :=
| Ok (a : A)
| Raise (e : exn).
Arguments Ok {A} a.
Arguments Raise {A} e.

(** ** Pure paths (pathlib.PurePosixPath) *)

Record PurePath := mkPath { anchored : bool; parts : list string }.

Fixpoint split_slash (s : string) : list string :=
  match s with
  | EmptyString => [EmptyString]
  | String c s' =>
      if Ascii.eqb c "/"%char then EmptyString :: split_slash s'
      else match split_slash s' with
           | h :: t => String c h :: t
           | [] => [String c EmptyString]
           end
  end.

Definition starts_with_slash (s : string) : bool :=
  match s with
  | String c _ => Ascii.eqb c "/"%char
  | EmptyString => false
  end.

(** [Path(s)]: empty components and ["."] are dropped, [".."] is kept. *)
Definition Path (s : string) : PurePath :=
  {| anchored := starts_with_slash s;
     parts := filter (λ c, c ≠ "" ∧ c ≠ ".") (split_slash s) |}.

(** [a / b]: an anchored right operand replaces the left one. *)
Definition truediv (a b : PurePath) : PurePath :=
  if anchored b then b
  else {| anchored := anchored a; parts := parts a ++ parts b |}.

(** [p.name] of an absolute location: its last component, [""] for the root. *)
Definition name (p : path) : string := List.last p "".

(** [str(p)] of an absolute location. *)
Fixpoint render (p : path) : string :=
  match p with
  | [] => ""
  | c :: p' => "/" +:+ c +:+ render p'
  end.

Definition str_of_path (p : path) : string :=
  match p with [] => "/" | _ => render p end.

(** An absolute location as a pure path. *)
Definition abs (p : path) : PurePath := {| anchored := true; parts := p |}.

(** ** The file system *)

Inductive node :=
| File
| Dir
| Link (target : path).

#[global] Instance node_eq_dec : EqDecision node.
Proof. solve_decision. Defined.

#[global] Instance exn_eq_dec : EqDecision exn.
Proof. solve_decision. Defined.

(** The file system maps locations to nodes; the root is always a
    directory and has no entry of its own. *)
Record world := mkWorld { fs : gmap (list string) node; cwd : path }.

Definition node_at (m : gmap (list string) node) (p : path) : option node :=
  match p with
  | [] => Some Dir
  | _ => m !! p
  end.

(** The outcome of a path walk: the node found and where, or a final
    component that does not exist in an existing directory, or an error. *)
Inductive wres :=
| Found (p : path) (n : node)
| Missing (p : path)
| WErr (e : exn).

(** The kernel's path resolution from directory [acc] over the
    components [rest].  Every component but the last must lead to a
    directory; a link is followed (its target is absolute) unless it is
    the last component and [follow] is off; at most [fuel] links are
    followed. *)
Fixpoint walk (fuel : nat) (follow : bool) (m : gmap (list string) node)
    : path → list string → wres :=
  fix go (acc : path) (rest : list string) {struct rest} : wres :=
    match rest with
    | [] =>
        match node_at m acc with
        | Some n => Found acc n
        | None => WErr (FileNotFoundError acc)
        end
    | c :: rest' =>
        match node_at m acc with
        | Some Dir =>
            if decide (c = "..") then go (removelast acc) rest'
            else
              let p := acc ++ [c] in
              match m !! p with
              | None =>
                  match rest' with
                  | [] => Missing p
                  | _ => WErr (FileNotFoundError p)
                  end
              | Some (Link t) =>
                  if (match rest' with [] => negb follow | _ => false end)
                  then Found p (Link t)
                  else match fuel with
                       | O => WErr (TooManyLinks p)
                       | S fuel' => walk fuel' follow m [] (t ++ rest')
                       end
              | Some _ => go p rest'
              end
        | Some _ => WErr (NotADirectoryError acc)
        | None => WErr (FileNotFoundError acc)
        end
    end.

(** The number of links the kernel follows in one path walk (Linux: 40). *)
Definition max_links : nat := 40.

Definition start_of (w : world) (p : PurePath) : path :=
  if anchored p then [] else cwd w.

Definition stat (w : world) (p : PurePath) : wres :=
  walk max_links true (fs w) (start_of w p) (parts p).

Definition lstat (w : world) (p : PurePath) : wres :=
  walk max_links false (fs w) (start_of w p) (parts p).

(** [os.path.isfile] and [Path.is_dir]: both follow links, both answer
    [False] on any error. *)
Definition isfile (w : world) (p : PurePath) : bool :=
  match stat w p with
  | Found _ File => true
  | _ => false
  end.

Definition is_dir (w : world) (p : PurePath) : bool :=
  match stat w p with
  | Found _ Dir => true
  | _ => false
  end.

(** [os.getcwd()]: fails when the working directory has been removed. *)
Definition os_getcwd (w : world) : result path :=
  match node_at (fs w) (cwd w) with
  | Some Dir => Ok (cwd w)
  | _ => Raise (FileNotFoundError (cwd w))
  end.

(** [os.mkdir(p)]: the last component is not followed and must not exist. *)
Definition os_mkdir (p : PurePath) (w : world) : result world :=
  match lstat w p with
  | Found q _ => Raise (FileExistsError q)
  | Missing q => Ok {| fs := <[q := Dir]> (fs w); cwd := cwd w |}
  | WErr e => Raise e
  end.

(** [os.chdir(p)]. *)
Definition os_chdir (p : PurePath) (w : world) : result world :=
  match stat w p with
  | Found q Dir => Ok {| fs := fs w; cwd := q |}
  | Found q _ => Raise (NotADirectoryError q)
  | Missing q => Raise (FileNotFoundError q)
  | WErr e => Raise e
  end.

(** [Path(link).symlink_to(target)]. *)
Definition symlink_to (link : PurePath) (target : path) (w : world)
    : result world :=
  match lstat w link with
  | Found q _ => Raise (FileExistsError q)
  | Missing q => Ok {| fs := <[q := Link target]> (fs w); cwd := cwd w |}
  | WErr e => Raise e
  end.

(** [os.rmdir(p)]: removes an empty directory. *)
Definition os_rmdir (p : PurePath) (w : world) : result world :=
  match lstat w p with
  | Found q Dir =>
      if bool_decide (map_Forall (λ k _, ¬ (q `prefix_of` k ∧ k ≠ q)) (fs w))
      then Ok {| fs := delete q (fs w); cwd := cwd w |}
      else Raise (DirectoryNotEmpty q)
  | Found q _ => Raise (NotADirectoryError q)
  | Missing q => Raise (FileNotFoundError q)
  | WErr e => Raise e
  end.

(** [Path.mkdir(parents=False, exist_ok=True)]: [os.mkdir]; a missing
    parent is an error, any other [OSError] is let through unless the
    path is a directory. *)
Definition mkdir_leaf (p : PurePath) (w : world) : result unit * world :=
  match os_mkdir p w with
  | Ok w' => (Ok tt, w')
  | Raise (FileNotFoundError q) => (Raise (FileNotFoundError q), w)
  | Raise e => if is_dir w p then (Ok tt, w) else (Raise e, w)
  end.

(** [Path.mkdir(parents=True, exist_ok=True)], by recursion on the parent;
    the components come reversed, so that the parent is the tail.  The
    directories made on the way stay when a later step fails. *)
Fixpoint mkdir_parents (anch : bool) (rparts : list string) (w : world)
    : result unit * world :=
  let p := {| anchored := anch; parts := rev rparts |} in
  match os_mkdir p w with
  | Ok w' => (Ok tt, w')
  | Raise (FileNotFoundError q) =>
      match rparts with
      | [] => (Raise (FileNotFoundError q), w)      (* self.parent == self *)
      | _ :: rparent =>
          match mkdir_parents anch rparent w with
          | (Ok _, w1) => mkdir_leaf p w1
          | (Raise e, w1) => (Raise e, w1)
          end
      end
  | Raise e => if is_dir w p then (Ok tt, w) else (Raise e, w)
  end.

Definition Path_mkdir (p : PurePath) (w : world) : result unit * world :=
  mkdir_parents (anchored p) (rev (parts p)) w.

(** ** Well-formed file systems *)

Fixpoint has_slash (s : string) : bool :=
  match s with
  | EmptyString => false
  | String c s' => Ascii.eqb c "/"%char || has_slash s'
  end.

(** What may stand between two slashes of a path: [".."] is allowed. *)
Definition valid_part (c : string) : Prop :=
  c ≠ "" ∧ c ≠ "." ∧ has_slash c = false.

(** What may name a directory entry. *)
Definition valid_name (c : string) : Prop :=
  valid_part c ∧ c ≠ "..".

#[global] Instance valid_part_dec c : Decision (valid_part c).
Proof. unfold valid_part. apply _. Defined.

#[global] Instance valid_name_dec c : Decision (valid_name c).
Proof. unfold valid_name. apply _. Defined.

(** Every entry has a proper name at every level and lies in a
    directory; the target of a link is made of proper parts. *)
Definition wf_entry (m : gmap (list string) node) (k : path) (n : node)
    : Prop :=
  Forall valid_name k ∧
  node_at m (removelast k) = Some Dir ∧
  match n with
  | Link t => Forall valid_part t
  | _ => True
  end.

#[global] Instance wf_entry_dec m k n : Decision (wf_entry m k n).
Proof. unfold wf_entry. destruct n; apply _. Defined.

Definition wf_fs (m : gmap (list string) node) : Prop :=
  map_Forall (wf_entry m) m.

Definition is_link (o : option node) : bool :=
  match o with
  | Some (Link _) => true
  | _ => false
  end.

(** The locations on the way from the root to [p], [p] included. *)
Definition prefixes (p : path) : list path :=
  (λ k, take k p) <$> seq 0 (S (length p)).

(** A location that passes through no symbolic link: its components are
    proper names, and no entry on the way to it, itself included, is a
    link. *)
Definition clean (m : gmap (list string) node) (p : path) : Prop :=
  Forall valid_name p ∧
  Forall (λ q, is_link (node_at m q) = false) (prefixes p).

#[global] Instance clean_dec m p : Decision (clean m p).
Proof. unfold clean. apply _. Defined.

(** ** pathlib's resolve *)

(** [Path.resolve()] is library code, and what it does where it meets a
    loop of links depends on the version of Python: up to 3.9 it raises
    [RuntimeError]; from 3.10 on it returns the rest of the path
    normalised as text, and 3.10 to 3.12 raise if a [stat] of that result
    fails with [ELOOP].  It is a parameter of the development.  It reads
    the world; all that is used of its result is that, in a well-formed
    file system, it is made of proper names. *)
Class Pathlib := {
  resolve : PurePath → world → result path;
  resolve_normal (p : PurePath) (w : world) (r : path) :
    wf_fs (fs w) → Forall valid_part (parts p) →
    resolve p w = Ok r → Forall valid_name r
}.

(** [m'] is [m] with some more directories. *)
Definition grown_by_dirs (m m' : gmap (list string) node) : Prop :=
  ∀ q, m' !! q ≠ m !! q → m !! q = None ∧ m' !! q = Some Dir.

(** A walk from the root to [r] ends at a regular file: what
    [os.path.isfile] tests on an absolute location. *)
Definition is_file (m : gmap (list string) node) (r : path) : Prop :=
  ∃ p, walk max_links true m [] r = Found p File.

(** The file systems that staging can reach from [m1] in the directory
    [S]: the entries that differ from [m1] are new, and each is a link in
    [S], named after its target, to a regular file. *)
Definition staged_over (m1 : gmap (list string) node) (S : path)
    (m : gmap (list string) node) : Prop :=
  ∀ q, m !! q ≠ m1 !! q →
       m1 !! q = None ∧
       ∃ r, r ≠ [] ∧ q = S ++ [name r] ∧ m !! q = Some (Link r) ∧ is_file m r.

(** The test of [is_file] as the code evaluates it. *)
Definition file_at (m : gmap (list string) node) (r : path) : bool :=
  match walk max_links true m [] r with
  | Found _ File => true
  | _ => false
  end.

(** [r] does not lie in or below the directory [S]. *)
Definition outside (S r : path) : Prop := ¬ S `prefix_of` r.

(** The links that staging makes in [S] for the files [rs], in order. *)
Definition with_links (S : path) (rs : list path)
    (m : gmap (list string) node) : gmap (list string) node :=
  foldl (λ m r, <[S ++ [name r] := Link r]> m) m rs.

(** The world of a process that is staging in [S] over [m1]. *)
Definition staging (m1 : gmap (list string) node) (S : path) (w : world)
    : Prop :=
  cwd w = S ∧ node_at m1 S = Some Dir ∧ staged_over m1 S (fs w).

(** ** The monad of the program: a world, a trace of what was done, and
    either a value or a raised exception *)

(** The trace is ghost state: it records each change of working
    directory, each link made and each call of [run_task]. *)
Inductive event :=
| EvChdir (p : path)
| EvSymlink (link target : path)
| EvRunTask (backward_dir_name log_name : string)
    (backward_list : list string) (run_config optional_input : pyval).

Record state := mkState { st_world : world; st_trace : list event }.

Definition link_events (S : path) (rs : list path) : list event :=
  (λ r, EvSymlink (S ++ [name r]) r) <$> rs.

Definition is_run_task (ev : event) : bool :=
  match ev with
  | EvRunTask _ _ _ _ _ => true
  | _ => false
  end.

(** How many times [run_task] has been called. *)
Definition run_task_calls (tr : list event) : nat :=
  length (List.filter is_run_task tr).

Definition M (A : Type) : Type := state → result A * state.

#[global] Instance M_ret : MRet M := λ A a s, (Ok a, s).
#[global] Instance M_bind : MBind M := λ A B f m s,
  match m s with
  | (Ok a, s') => f a s'
  | (Raise e, s') => (Raise e, s')
  end.

#[global] Instance result_ret : MRet result := λ A a, Ok a.
#[global] Instance result_bind : MBind result := λ A B f r,
  match r with
  | Ok a => f a
  | Raise e => Raise e
  end.

Definition raise {A} (e : exn) : M A := λ s, (Raise e, s).

(** A pure step that may raise. *)
Definition lift {A} (r : result A) : M A := λ s, (r, s).

(** A step that reads the world. *)
Definition reads {A} (f : world → A) : M A := λ s, (Ok (f (st_world s)), s).

Definition tries {A} (f : world → result A) : M A := λ s, (f (st_world s), s).

(** A step that changes the world and records [ev w'] when it succeeds. *)
Definition writes (f : world → result world) (ev : world → list event)
    : M unit := λ s,
  match f (st_world s) with
  | Ok w' => (Ok tt, {| st_world := w'; st_trace := st_trace s ++ ev w' |})
  | Raise e => (Raise e, s)
  end.

Definition chdir (p : PurePath) : M unit :=
  writes (os_chdir p) (λ w', [EvChdir (cwd w')]).

(** [path.mkdir(exist_ok=True, parents=True)]: whether it returns or
    raises, the world is the one it left. *)
Definition mkdir_p (p : PurePath) : M unit := λ s,
  let '(r, w') := Path_mkdir p (st_world s) in
  (r, {| st_world := w'; st_trace := st_trace s |}).

Definition symlink (link : PurePath) (target : path) : M unit := λ s,
  match lstat (st_world s) link with
  | Missing q =>
      writes (symlink_to link target) (λ _, [EvSymlink q target]) s
  | _ => writes (symlink_to link target) (λ _, []) s
  end.

Definition rmdir (p : PurePath) : M unit :=
  writes (os_rmdir p) (λ _, []).

(** ** set_directory *)

(** [with set_directory(path): body].  The generator runs up to its
    [yield], the body runs, and the [finally] clause runs on every way
    out of the [try]; an exception raised by the [finally] clause itself
    replaces whatever was being propagated. *)
Definition set_directory {A} (p : PurePath) (body : M A) : M A := λ s,
  match tries os_getcwd s with                  (* cwd = Path().absolute() *)
  | (Raise e, s0) => (Raise e, s0)
  | (Ok cwd0, s0) =>
      match mkdir_p p s0 with                   (* path.mkdir(...) *)
      | (Raise e, s1) => (Raise e, s1)
      | (Ok _, s1) =>
          let '(r, s2) := (chdir p ≫= λ _, body) s1 in        (* try *)
          match chdir (abs cwd0) s2 with                       (* finally *)
          | (Ok _, s3) => (r, s3)
          | (Raise e, s3) => (Raise e, s3)
          end
      end
  end.

(** The part of [set_directory] before the [yield]. *)
Definition enter (p : PurePath) : M unit :=
  _ ← tries os_getcwd;
  _ ← mkdir_p p;
  chdir p.

(** The part after the block: the [finally] clause, run on what the block
    left. *)
Definition leave {A} (cwd0 : path) (out : result A * state)
    : result A * state :=
  let '(r, s2) := out in
  match chdir (abs cwd0) s2 with
  | (Ok _, s3) => (r, s3)
  | (Raise e, s3) => (Raise e, s3)
  end.

(** ** dargs *)

(** The two operations of [dargs.Argument] that [normalize_config] calls
    on [Argument("base", dict, ta)]; dargs is a library outside the
    repository, so they are parameters of the development. *)
Class Dargs := {
  Argument : Type;
  (* base.normalize_value(data, trim_pattern="_*") *)
  normalize_value : list Argument → pyval → result pyval;
  (* base.check_value(data, strict=strict) *)
  check_value : list Argument → pyval → bool → result unit
}.

(** ** The abstract operator RunFp *)

(** What a concrete task type supplies: the three abstract methods. *)
Class FpTask `{Dargs} := {
  input_files : list string;
  run_task : string → string → list string → pyval → pyval →
             world → result string * world;
  args : list Argument
}.

(** The input record, after the host runtime has filled the declared
    defaults.  [task_path] is kept as the text of the path, from which
    [Path(task_path)] is built.  [optional_artifact] is declared
    [optional=True]: when the caller gives none, the field holds [None]. *)
Record OPIO_in := {
  ip_task_name : string;
  ip_task_path : string;
  ip_backward_list : list string;
  ip_log_name : string;
  ip_backward_dir_name : string;
  ip_config : gmap string pyval;
  ip_optional_artifact : option (list (string * PurePath));
  ip_optional_input : pyval
}.

(** [get_input_sign]: the record built from the three fields without a
    default, every other field at its declared default. *)
Definition input_with_defaults (task_name : string) (task_path : string)
    (backward_list : list string) : OPIO_in :=
  {| ip_task_name := task_name;
     ip_task_path := task_path;
     ip_backward_list := backward_list;
     ip_log_name := "log";
     ip_backward_dir_name := "backward_dir";
     ip_config := ∅;
     ip_optional_artifact := None;
     ip_optional_input := PDict [] |}.

(** The same record with another [optional_artifact]. *)
Definition with_optional_artifact (ip : OPIO_in)
    (oa : option (list (string * PurePath))) : OPIO_in :=
  {| ip_task_name := ip_task_name ip;
     ip_task_path := ip_task_path ip;
     ip_backward_list := ip_backward_list ip;
     ip_log_name := ip_log_name ip;
     ip_backward_dir_name := ip_backward_dir_name ip;
     ip_config := ip_config ip;
     ip_optional_artifact := oa;
     ip_optional_input := ip_optional_input ip |}.

(** The same record with another [config]. *)
Definition with_config (ip : OPIO_in) (config : gmap string pyval) : OPIO_in :=
  {| ip_task_name := ip_task_name ip;
     ip_task_path := ip_task_path ip;
     ip_backward_list := ip_backward_list ip;
     ip_log_name := ip_log_name ip;
     ip_backward_dir_name := ip_backward_dir_name ip;
     ip_config := config;
     ip_optional_artifact := ip_optional_artifact ip;
     ip_optional_input := ip_optional_input ip |}.

(** [d[k]] on a dict. *)
Definition getitem (d : gmap string pyval) (k : string) : result pyval :=
  match d !! k with
  | Some v => Ok v
  | None => Raise (KeyError k)
  end.

Definition missing_file (r : path) : exn :=
  FatalError ("cannot file file " +:+ str_of_path r).

Definition no_items : exn :=
  AttributeError "'NoneType' object has no attribute 'items'".

(** [d.items()] on a value that may be [None]. *)
Definition items {V} (d : option (list (string * V)))
    : result (list (string * V)) :=
  match d with
  | Some l => Ok l
  | None => Raise no_items
  end.

Section RunFp.
Context {D : Dargs} {P : Pathlib} {T : FpTask}.

Definition normalize_config (data : option pyval) (strict : option bool)
    : result pyval :=
  let data := default (PDict []) data in
  let strict := default true strict in
  let ta := args in
  data ← normalize_value ta data;
  _ ← check_value ta data strict;
  mret data.

(** The first loop of the [with] block: the mandatory files. *)
Fixpoint link_input_files (files : list path) : M unit :=
  match files with
  | [] => mret tt
  | ii :: files' =>
      present ← reads (λ w, isfile w (abs ii));
      if negb present
      then raise (FatalError ("cannot file file " +:+ str_of_path ii))
      else
        let iname := name ii in
        _ ← symlink (Path iname) ii;
        link_input_files files'
  end.

(** The second loop: the optional files. *)
Fixpoint link_opt_input_files (files : list path) : M unit :=
  match files with
  | [] => mret tt
  | ii :: files' =>
      present ← reads (λ w, isfile w (abs ii));
      if (present : bool)
      then
        let iname := name ii in
        _ ← symlink (Path iname) ii;
        link_opt_input_files files'
      else link_opt_input_files files'
  end.

Definition call_run_task (backward_dir_name log_name : string)
    (backward_list : list string) (run_config optional_input : pyval)
    : M string := λ s,
  let ev := EvRunTask backward_dir_name log_name backward_list
              run_config optional_input in
  let '(r, w') := run_task backward_dir_name log_name backward_list
                    run_config optional_input (st_world s) in
  (r, {| st_world := w'; st_trace := st_trace s ++ [ev] |}).

(** [(Path(task_path) / ii).resolve()] for every [ii]. *)
Definition resolve_under (task_path : PurePath) (names : list string)
    : M (list path) :=
  mapM (λ ii, tries (resolve (truediv task_path (Path ii)))) names.

(** The body of the [with] block. *)
Definition staged_run (ip : OPIO_in) (run_config : pyval)
    (input_files opt_input_files : list path) : M string :=
  _ ← link_input_files input_files;
  _ ← link_opt_input_files opt_input_files;
  call_run_task (ip_backward_dir_name ip) (ip_log_name ip)
    (ip_backward_list ip) run_config (ip_optional_input ip).

(** Lines 196-210: what [execute] does before the [with] statement. *)
Definition prepare (ip : OPIO_in) : M (pyval * list path * list path) :=
  run ← lift (getitem (ip_config ip) "run");
  let run_config := match run with PNone => PDict [] | v => v end in
  run_config ← lift (normalize_config (Some run_config) (Some false));
  input_files ← resolve_under (Path (ip_task_path ip)) input_files;
  artifacts ← lift (items (ip_optional_artifact ip));
  opt_input_files ← resolve_under (Path (ip_task_path ip)) artifacts.*1;
  mret (run_config, input_files, opt_input_files).

(** Lines 201-228: what [execute] does once [run_config] is normalised. *)
Definition execute_normalized (ip : OPIO_in) (run_config : pyval)
    : M PurePath :=
  let task_name := ip_task_name ip in
  let task_path := ip_task_path ip in
  input_files ← resolve_under (Path task_path) input_files;
  let work_dir := Path task_name in
  artifacts ← lift (items (ip_optional_artifact ip));
  let opt_input_files :=
    foldl (λ (acc : list string) (item : string * PurePath),
             let '(ss, vv) := item in acc ++ [ss]) [] artifacts in
  opt_input_files ← resolve_under (Path task_path) opt_input_files;
  backward_dir_name ←
    set_directory work_dir
      (staged_run ip run_config input_files opt_input_files);
  mret (truediv work_dir (Path backward_dir_name)).

Definition execute (ip : OPIO_in) : M PurePath :=
  run ← lift (getitem (ip_config ip) "run");
  let run_config := match run with PNone => PDict [] | v => v end in
  run_config ← lift (normalize_config (Some run_config) (Some false));
  execute_normalized ip run_config.

End RunFp.

(** ** A concrete schema library, for examples *)

(** dargs itself is not in the repository.  For the examples, a flat
    schema in its manner: named arguments, each with a type and, when it
    is optional, a default.  Normalisation drops the keys that match the
    trim pattern ["_*"] and fills the defaults of the optional keys that
    are absent.  Checking rejects a value that is not a mapping, lacks a
    required key, or holds a value of the wrong type under a declared
    key; in strict mode it also rejects a key that is not declared. *)
Module FlatSchema.

Inductive dtype := TBool | TInt | TStr | TList | TDict.

Record argument := {
  arg_name : string;
  arg_dtype : dtype;
  arg_default : option pyval       (* [None]: the argument is required *)
}.

(** [isinstance(v, t)]; in Python a [bool] is an [int]. *)
Definition has_type (v : pyval) (t : dtype) : bool :=
  match v, t with
  | PBool _, TBool | PBool _, TInt | PInt _, TInt | PStr _, TStr
  | PList _, TList | PDict _, TDict => true
  | _, _ => false
  end.

Definition has_key {V} (k : string) (d : list (string * V)) : bool :=
  bool_decide (k ∈ d.*1).

Definition declared (ta : list argument) (k : string) : bool :=
  bool_decide (k ∈ arg_name <$> ta).

Definition trimmed (k : string) : bool :=
  match k with
  | String c _ => Ascii.eqb c "_"%char
  | EmptyString => false
  end.

Definition fill_defaults (ta : list argument) (d : list (string * pyval))
    : list (string * pyval) :=
  d ++ omap (λ a : argument,
               match arg_default a with
               | Some v =>
                   if has_key (arg_name a) d then None
                   else Some (arg_name a, v)
               | None => None
               end) ta.

Definition normalize (ta : list argument) (data : pyval) : result pyval :=
  match data with
  | PDict d =>
      Ok (PDict (fill_defaults ta
                   (filter (λ kv, trimmed kv.1 = false) d)))
  | v => Ok v
  end.

(** The value under the key of [a], if there is one, has the type of
    [a]. *)
Definition well_typed (d : list (string * pyval)) (a : argument) : bool :=
  forallb (λ kv : string * pyval,
             if String.eqb kv.1 (arg_name a)
             then has_type kv.2 (arg_dtype a) else true) d.

Definition required_present (d : list (string * pyval)) (a : argument)
    : bool :=
  match arg_default a with
  | Some _ => true
  | None => has_key (arg_name a) d
  end.

Definition check (ta : list argument) (data : pyval) (strict : bool)
    : result unit :=
  match data with
  | PDict d =>
      if negb (forallb (required_present d) ta)
      then Raise (ArgumentError "key not found")
      else if negb (forallb (well_typed d) ta)
      then Raise (ArgumentError "wrong type")
      else if strict && negb (forallb (λ kv, declared ta kv.1) d)
      then Raise (ArgumentError "undefined key")
      else Ok tt
  | _ => Raise (ArgumentError "not a dict")
  end.

#[global] Instance dargs : Dargs :=
  {| Argument := argument; normalize_value := normalize;
     check_value := check |}.

End FlatSchema.

(** ** A concrete resolver, for examples *)

(** [Path.resolve()] as pathlib implements it up to Python 3.9
    ([_PosixFlavour.resolve], non-strict): the components are taken one
    by one, [".."] drops the last resolved component, a component that is
    not a link (or does not exist) is kept, a link is resolved once and
    its result remembered in [seen], and meeting a link whose resolution
    is under way is a loop.  Later versions agree with it wherever no
    loop is met. *)
Module Pathlib39.

(** [None] is a loop.  [fuel] bounds the nesting of links under
    resolution; they are distinct entries of [m], so the number of
    entries is enough. *)
Fixpoint resolve_links (fuel : nat) (m : gmap (list string) node)
    : gmap (list string) (option path) → path → list string →
      option (path * gmap (list string) (option path)) :=
  fix go (seen : gmap (list string) (option path)) (acc : path)
      (rest : list string) {struct rest} :=
    match rest with
    | [] => Some (acc, seen)
    | c :: rest' =>
        if decide (c = "" ∨ c = ".") then go seen acc rest'
        else if decide (c = "..") then go seen (removelast acc) rest'
        else
          let newpath := acc ++ [c] in
          match seen !! newpath with
          | Some (Some p) => go seen p rest'           (* cached *)
          | Some None => None                          (* a loop *)
          | None =>
              match m !! newpath with
              | Some (Link t) =>
                  match fuel with
                  | O => None
                  | S fuel' =>
                      match resolve_links fuel' m
                              (<[newpath := None]> seen) [] t with
                      | Some (p, seen') =>
                          go (<[newpath := Some p]> seen') p rest'
                      | None => None
                      end
                  end
              | _ => go seen newpath rest'
              end
          end
    end.

Definition Path_resolve (p : PurePath) (w : world) : result path :=
  match (if anchored p then Ok [] else os_getcwd w) with
  | Ok start =>
      match resolve_links (size (fs w)) (fs w) ∅ start (parts p) with
      | Some (r, _) => Ok r
      | None => Raise (RuntimeError "Symlink loop")
      end
  | Raise e => Raise e
  end.

#[global] Program Instance pathlib : Pathlib := {| resolve := Path_resolve |}.
Next Obligation.
  assert (Hrem : ∀ l : path, Forall valid_name l →
                             Forall valid_name (removelast l)).
  { intros l Hl. rewrite removelast_firstn_len. by apply Forall_take. }
  assert (Hnil : ∀ f m seen acc,
            resolve_links f m seen acc [] = Some (acc, seen))
    by (by intros []).
  assert (Hcons : ∀ f m seen acc c rest,
    resolve_links f m seen acc (c :: rest) =
      if decide (c = "" ∨ c = ".") then resolve_links f m seen acc rest
      else if decide (c = "..")
      then resolve_links f m seen (removelast acc) rest
      else
        match seen !! (acc ++ [c]) with
        | Some (Some p) => resolve_links f m seen p rest
        | Some None => None
        | None =>
            match m !! (acc ++ [c]) with
            | Some (Link t) =>
                match f with
                | O => None
                | S f' =>
                    match resolve_links f' m
                            (<[acc ++ [c] := None]> seen) [] t with
                    | Some (p, seen') =>
                        resolve_links f m (<[acc ++ [c] := Some p]> seen')
                          p rest
                    | None => None
                    end
                end
            | _ => resolve_links f m seen (acc ++ [c]) rest
            end
        end) by (by intros []).
  pose (cached := λ seen : gmap (list string) (option path),
          ∀ k p, seen !! k = Some (Some p) → Forall valid_name p).
  assert (Hgo : ∀ m, wf_fs m → ∀ f rest seen acc r seen',
            cached seen → Forall valid_name acc → Forall valid_part rest →
            resolve_links f m seen acc rest = Some (r, seen') →
            Forall valid_name r ∧ cached seen').
  { intros m Hwf f. induction f as [|f IHf];
      (induction rest as [|c rest IH]; intros seen acc r seen' Hs Hacc Hrest;
       [rewrite Hnil; by intros [= <- <-]|]);
      rewrite Hcons; intros H;
      apply Forall_cons in Hrest as [Hc Hrest];
      (destruct (decide (c = "" ∨ c = ".")); [by eapply IH|]);
      (destruct (decide (c = "..")); [eapply IH; [done|by apply Hrem|done..]|]);
      (assert (Forall valid_name (acc ++ [c])) as Hnew
         by (apply Forall_app; split; [done|];
             apply Forall_cons; split; [by split|constructor]));
      (destruct (seen !! (acc ++ [c])) as [[p|]|] eqn:Hseen;
       [eapply IH; [done|by eapply Hs|done..]|done|]);
      destruct (m !! (acc ++ [c])) as [[| |t]|] eqn:Hm;
      try (by eapply IH).
    destruct (resolve_links f m _ [] t) as [[p seen1]|] eqn:Ht; [|done].
    apply IHf in Ht as [Hp Hs1].
    - eapply IH; [|exact Hp|done..].
      intros k q. destruct (decide (k = acc ++ [c])) as [->|].
      + rewrite lookup_insert_eq. by intros [= <-].
      + rewrite lookup_insert_ne by done. apply Hs1.
    - intros k q. destruct (decide (k = acc ++ [c])) as [->|].
      + by rewrite lookup_insert_eq.
      + rewrite lookup_insert_ne by done. apply Hs.
    - constructor.
    - by destruct (Hwf _ _ Hm) as (_ & _ & ?). }
  intros p w r Hwf Hp. unfold Path_resolve, os_getcwd. intros H.
  assert (Hstart : ∀ start,
            (if anchored p then Ok []
             else match node_at (fs w) (cwd w) with
                  | Some Dir => Ok (cwd w)
                  | _ => Raise (FileNotFoundError (cwd w))
                  end) = Ok start → Forall valid_name start).
  { intros start. destruct (anchored p); [by intros [= <-]|].
    destruct (node_at (fs w) (cwd w)) as [[]|] eqn:Hcwd; try done.
    intros [= <-]. destruct (cwd w) as [|c k] eqn:E; [constructor|].
    by destruct (Hwf _ _ Hcwd) as (? & _). }
  destruct (if anchored p then _ else _) as [start|] eqn:Hst; [|done].
  destruct (resolve_links _ _ _ _ _) as [[r' seen']|] eqn:Hr; [|done].
  injection H as <-.
  eapply (Hgo _ Hwf) in Hr as [? _]; [done| |by apply Hstart|done].
  intros k q. by rewrite lookup_empty.
Qed.

End Pathlib39.

(** ** Concrete worlds, task types and blocks, for examples *)

Module Examples.
Import FlatSchema Pathlib39.

(** A block that removes the directory the process came from, and then
    fails. *)
Definition block_removing_origin : M unit :=
  _ ← rmdir (Path "/w/old");
  raise (TransientError "fp failed").

(** A block that only fails. *)
Definition block_failing : M unit := raise (TransientError "fp failed").

Definition world_old : world :=
  {| fs := list_to_map [(["w"], Dir); (["w"; "old"], Dir)];
     cwd := ["w"; "old"] |}.

Definition schema : list argument :=
  [{| arg_name := "nproc"; arg_dtype := TInt; arg_default := Some (PInt 1) |}].

(** A [run_task] that makes [backward_dir_name] with the log in it and
    returns that name. *)
Definition run_ok (backward_dir_name log_name : string)
    (backward_list : list string) (run_config optional_input : pyval)
    (w : world) : result string * world :=
  let d := cwd w ++ [backward_dir_name] in
  (Ok backward_dir_name,
   {| fs := <[d ++ [log_name] := File]> (<[d := Dir]> (fs w));
      cwd := cwd w |}).

(** A [run_task] that puts its results in a directory of its own
    choosing. *)
Definition run_elsewhere (backward_dir_name log_name : string)
    (backward_list : list string) (run_config optional_input : pyval)
    (w : world) : result string * world :=
  let d := cwd w ++ ["results"] in
  (Ok "results",
   {| fs := <[d ++ [log_name] := File]> (<[d := Dir]> (fs w));
      cwd := cwd w |}).

(** A [run_task] that puts its results in a directory outside the task
    directory and returns its absolute name. *)
Definition run_absolute (backward_dir_name log_name : string)
    (backward_list : list string) (run_config optional_input : pyval)
    (w : world) : result string * world :=
  (Ok "/w/results",
   {| fs := <[["w"; "results"; log_name] := File]>
              (<[["w"; "results"] := Dir]> (fs w));
      cwd := cwd w |}).

(** A [run_task] whose external program fails. *)
Definition run_failing (backward_dir_name log_name : string)
    (backward_list : list string) (run_config optional_input : pyval)
    (w : world) : result string * world :=
  (Raise (TransientError "fp failed"), w).

Definition poscar_task : FpTask :=
  {| input_files := ["POSCAR"]; run_task := run_ok; args := schema |}.

Definition elsewhere_task : FpTask :=
  {| input_files := ["POSCAR"]; run_task := run_elsewhere;
     args := schema |}.

Definition absolute_task : FpTask :=
  {| input_files := ["POSCAR"]; run_task := run_absolute; args := schema |}.

Definition failing_task : FpTask :=
  {| input_files := ["POSCAR"]; run_task := run_failing; args := schema |}.

Definition vasp_task : FpTask :=
  {| input_files := ["POSCAR"; "INCAR"]; run_task := run_ok;
     args := schema |}.

(** The prepared inputs: [POSCAR] and [extra.json], no [INCAR]. *)
Definition world_in : world :=
  {| fs := list_to_map
             [(["w"], Dir); (["w"; "in"], Dir);
              (["w"; "in"; "POSCAR"], File);
              (["w"; "in"; "extra.json"], File)];
     cwd := ["w"] |}.

(** The same, with a regular file where the task directory should be. *)
Definition world_blocked : world :=
  {| fs := <[["w"; "task.000"] := File]> (fs world_in); cwd := ["w"] |}.

(** The same, after a run that got as far as linking [POSCAR]. *)
Definition world_stale : world :=
  {| fs := <[["w"; "task.000"; "POSCAR"] := Link ["w"; "in"; "POSCAR"]]>
             (<[["w"; "task.000"] := Dir]> (fs world_in));
     cwd := ["w"] |}.

(** A task type whose two mandatory files have the same base name. *)
Definition twin_task : FpTask :=
  {| input_files := ["a/POSCAR"; "b/POSCAR"]; run_task := run_ok;
     args := schema |}.

Definition world_twin : world :=
  {| fs := list_to_map
             [(["w"], Dir); (["w"; "in"], Dir);
              (["w"; "in"; "a"], Dir); (["w"; "in"; "b"], Dir);
              (["w"; "in"; "a"; "POSCAR"], File);
              (["w"; "in"; "b"; "POSCAR"], File)];
     cwd := ["w"] |}.

(** The prepared inputs, with the task directory already made. *)
Definition world_made : world :=
  {| fs := <[["w"; "task.000"] := Dir]> (fs world_in); cwd := ["w"] |}.

Definition start (w : world) : state := {| st_world := w; st_trace := [] |}.

Definition input (config : gmap string pyval)
    (optional_artifact : option (list (string * PurePath))) : OPIO_in :=
  {| ip_task_name := "task.000";
     ip_task_path := "in";
     ip_backward_list := ["OUTCAR"];
     ip_log_name := "log";
     ip_backward_dir_name := "backward_dir";
     ip_config := config;
     ip_optional_artifact := optional_artifact;
     ip_optional_input := PDict [] |}.

Definition run_null : gmap string pyval := {[ "run" := PNone ]}.


Definition aux_artifact : list (string * PurePath) :=
  [("aux", Path "/w/in/extra.json")].

Definition extra_artifact : list (string * PurePath) :=
  [("extra.json", Path "/w/in/extra.json")].

(** Two keys: the file of the first is there, that of the second is
    not. *)
Definition extra_and_missing : list (string * PurePath) :=
  [("extra.json", Path "/w/in/extra.json");
   ("KPOINTS", Path "/w/in/KPOINTS")].

Definition extra_artifact' : list (string * PurePath) :=
  [("extra.json", Path "/somewhere/else")].

End Examples.

(** * Properties *)

Ltac unfold_m :=
  unfold mbind, mret, M_bind, M_ret, result_bind, result_ret,
         lift, raise, reads, tries in *.

Ltac break_match_hyp :=
  match goal with
  | H : context [match ?x with _ => _ end] |- _ => destruct x eqn:?
  end.

Ltac break_match_goal :=
  match goal with
  | |- context [match ?x with _ => _ end] => destruct x eqn:?
  end.

Lemma run_task_calls_app tr tr' :
  run_task_calls (tr ++ tr')
  = (run_task_calls tr + run_task_calls tr')%nat.
Proof. unfold run_task_calls. by rewrite List.filter_app, length_app. Qed.

Lemma run_task_calls_cons ev tr :
  run_task_calls (ev :: tr)
  = ((if is_run_task ev then 1 else 0) + run_task_calls tr)%nat.
Proof. unfold run_task_calls. simpl. by destruct (is_run_task ev). Qed.

Ltac calls_arith :=
  rewrite ?run_task_calls_app; unfold run_task_calls; simpl; lia.

Section Basics.
Context {D : Dargs} {P : Pathlib} {T : FpTask}.

Lemma artifact_keys {V} (l : list (string * V)) (acc : list string) :
  foldl (λ (acc : list string) (item : string * V),
           let '(ss, vv) := item in acc ++ [ss]) acc l = acc ++ l.*1.
Proof.
  revert acc. induction l as [|[k v] l IH]; intros acc; simpl.
  - by rewrite app_nil_r.
  - rewrite IH. by rewrite <- app_assoc.
Qed.

(** Resolving paths reads the world and leaves the state as it is. *)
Lemma resolve_under_state tp names s r s' :
  resolve_under tp names s = (r, s') → s' = s.
Proof.
  unfold resolve_under. revert r s'.
  induction names as [|n names IH]; intros r s'; simpl.
  - unfold_m. by intros [= _ <-].
  - unfold_m. destruct (resolve _ _); [|by intros [= _ <-]].
    destruct (mapM (M:=M) _ names s) as [[l|e] s1] eqn:E;
      pose proof (IH _ _ eq_refl) as ->; by intros [= _ <-].
Qed.

Lemma execute_missing_run ip s :
  ip_config ip !! "run" = None →
  execute ip s = (Raise (KeyError "run"), s).
Proof.
  intros Hrun. unfold execute, getitem. unfold_m. by rewrite Hrun.
Qed.

(** The branch that the conditional expression does handle: a [run]
    entry that is [None] stands for the empty mapping. *)
Lemma execute_null_run ip s :
  ip_config ip !! "run" = Some PNone →
  execute ip s =
    (lift (normalize_config (Some (PDict [])) (Some false))
       ≫= execute_normalized ip) s.
Proof.
  intros Hrun. unfold execute, getitem. unfold_m. by rewrite Hrun.
Qed.

(** C3 (the code departs from the claim): with the declared default
    [config = {}], which has no ["run"] entry, [execute] does not fall
    back to the empty mapping; the subscript [ip["config"]["run"]]
    raises [KeyError] before anything else is done. *)
Theorem execute_default_config_KeyError task_name task_path backward_list s :
  execute (input_with_defaults task_name task_path backward_list) s
  = (Raise (KeyError "run"), s).
Proof. by apply execute_missing_run. Qed.

(** C7 (the code departs from the claim): [optional_artifact] is
    declared optional, yet when it is absent [execute] raises before
    the staging directory is touched: the state is left as it was, and
    once the configuration is normalised and the mandatory names are
    resolved the exception is the [AttributeError] of [None.items()]. *)
Theorem execute_absent_optional_artifact ip s :
  ip_optional_artifact ip = None →
  (∃ e, execute ip s = (Raise e, s)) ∧
  (∀ run rc rs,
     ip_config ip !! "run" = Some run →
     normalize_config
       (Some (match run with PNone => PDict [] | v => v end)) (Some false)
     = Ok rc →
     resolve_under (Path (ip_task_path ip)) input_files s = (Ok rs, s) →
     execute ip s = (Raise no_items, s)).
Proof.
  intros Hoa.
  assert (Hn : ∀ rc, ∃ e, execute_normalized ip rc s = (Raise e, s)).
  { intros rc. unfold execute_normalized. unfold_m.
    destruct (resolve_under _ input_files s) as [[rs|e] s1] eqn:E;
      apply resolve_under_state in E as ->; [|by eexists].
    rewrite Hoa. simpl. by eexists. }
  split.
  - unfold execute, getitem. unfold_m.
    destruct (ip_config ip !! "run") as [run|]; [|by eexists].
    destruct (normalize_config _ _) as [rc|e]; [|by eexists].
    apply Hn.
  - intros run rc rs Hrun Hrc Hrs. unfold execute, getitem. unfold_m.
    rewrite Hrun, Hrc. unfold execute_normalized. unfold_m.
    rewrite Hrs, Hoa. done.
Qed.

(** C10: the path values of [optional_artifact] are never read.  Two
    input records that differ only in those values (same keys, in the
    same order) give the same result, the same file system and the same
    trace of links and calls. *)
Theorem optional_artifact_values_unread ip
    (oa oa' : list (string * PurePath)) s :
  oa.*1 = oa'.*1 →
  execute (with_optional_artifact ip (Some oa)) s
  = execute (with_optional_artifact ip (Some oa')) s.
Proof.
  intros Hkeys. unfold execute, execute_normalized. unfold_m.
  cbn -[foldl resolve_under set_directory normalize_config staged_run].
  rewrite !artifact_keys, Hkeys. done.
Qed.


End Basics.

(** ** Pure paths *)

Section Names.

Lemma split_slash_no_slash s :
  Forall (λ c, has_slash c = false) (split_slash s).
Proof.
  induction s as [|c s IH]; simpl; [by repeat constructor|].
  destruct (Ascii.eqb c "/") eqn:E; [by constructor|].
  destruct (split_slash s) as [|h t]; [by repeat constructor; simpl; rewrite E|].
  inversion_clear IH. constructor; [|done]. simpl. by rewrite E.
Qed.

Lemma split_slash_plain s : has_slash s = false → split_slash s = [s].
Proof.
  induction s as [|c s IH]; simpl; [done|].
  intros [Hc Hs]%orb_false_iff. rewrite Hc, (IH Hs). done.
Qed.

Lemma Path_parts_valid s : Forall valid_part (parts (Path s)).
Proof.
  unfold Path. simpl. pose proof (split_slash_no_slash s) as H.
  induction H as [|c l Hc Hl IH]; [constructor|].
  rewrite filter_cons. case_decide as Hd; [|done].
  constructor; [|done]. by destruct Hd.
Qed.

(** A proper name is a one-component relative path. *)
Lemma Path_valid_name n :
  valid_name n → Path n = {| anchored := false; parts := [n] |}.
Proof.
  intros [(Hne & Hdot & Hs) _]. unfold Path.
  rewrite (split_slash_plain _ Hs). f_equal.
  - destruct n as [|c n]; [done|]. simpl in *.
    by apply orb_false_iff in Hs as [-> _].
  - rewrite filter_cons. by rewrite decide_True.
Qed.

Lemma truediv_parts_valid a b :
  Forall valid_part (parts a) → Forall valid_part (parts b) →
  Forall valid_part (parts (truediv a b)).
Proof.
  intros Ha Hb. unfold truediv. destruct (anchored b); [done|].
  simpl. by apply Forall_app.
Qed.

Lemma name_snoc p c : name (p ++ [c]) = c.
Proof. unfold name. by rewrite last_last. Qed.

Lemma name_valid p : p ≠ [] → Forall valid_name p → valid_name (name p).
Proof.
  intros Hp H. destruct (exists_last Hp) as (q & c & ->).
  rewrite name_snoc. by apply Forall_app in H as [_ [? _]%Forall_cons].
Qed.

Lemma snoc_name p : p ≠ [] → removelast p ++ [name p] = p.
Proof. intros Hp. symmetry. by apply app_removelast_last. Qed.

End Names.

(** ** Path walks *)

Section Walk.
Implicit Types (m : gmap (list string) node) (acc p q : path)
  (rest : list string).

Lemma walk_nil f b m acc :
  walk f b m acc [] =
    match node_at m acc with
    | Some n => Found acc n
    | None => WErr (FileNotFoundError acc)
    end.
Proof. by destruct f. Qed.

Lemma walk_cons f b m acc c rest :
  walk f b m acc (c :: rest) =
    match node_at m acc with
    | Some Dir =>
        if decide (c = "..") then walk f b m (removelast acc) rest
        else
          match m !! (acc ++ [c]) with
          | None =>
              match rest with
              | [] => Missing (acc ++ [c])
              | _ => WErr (FileNotFoundError (acc ++ [c]))
              end
          | Some (Link t) =>
              if (match rest with [] => negb b | _ => false end)
              then Found (acc ++ [c]) (Link t)
              else match f with
                   | O => WErr (TooManyLinks (acc ++ [c]))
                   | S f' => walk f' b m [] (t ++ rest)
                   end
          | Some _ => walk f b m (acc ++ [c]) rest
          end
    | Some _ => WErr (NotADirectoryError acc)
    | None => WErr (FileNotFoundError acc)
    end.
Proof. by destruct f. Qed.

Opaque walk.

Lemma node_at_snoc m acc c : node_at m (acc ++ [c]) = m !! (acc ++ [c]).
Proof. by destruct acc. Qed.

(** What a walk finds is what the map holds there. *)
Lemma walk_Found f b m acc rest p n :
  walk f b m acc rest = Found p n → node_at m p = Some n.
Proof.
  revert acc rest.
  induction f as [|f IHf]; intros acc rest; revert acc;
    (induction rest as [|c rest IH]; intros acc;
     [rewrite walk_nil; destruct (node_at m acc) eqn:E; by intros [= <- <-]|]);
    rewrite walk_cons; intros H;
    repeat break_match_hyp; simplify_eq; eauto;
    by rewrite node_at_snoc.
Qed.

(** A missing last component has no entry, and its parent is a
    directory. *)
Lemma walk_Missing f b m acc rest p :
  walk f b m acc rest = Missing p →
  m !! p = None ∧ ∃ q c, p = q ++ [c] ∧ node_at m q = Some Dir.
Proof.
  revert acc rest.
  induction f as [|f IHf]; intros acc rest; revert acc;
    (induction rest as [|c rest IH]; intros acc;
     [rewrite walk_nil; by destruct (node_at m acc)|]);
    rewrite walk_cons; intros H;
    repeat break_match_hyp; simplify_eq; eauto.
Qed.

(** Entries that are added do not disturb a walk that found its node. *)
Lemma node_at_mono m m' p n :
  m ⊆ m' → node_at m p = Some n → node_at m' p = Some n.
Proof. destruct p; [done|]. simpl. intros. by eapply lookup_weaken. Qed.

Ltac walk_induction f rest acc :=
  revert acc rest;
  induction f as [|f IHf]; intros acc rest; revert acc;
  induction rest as [|c rest IH]; intros acc.

Lemma walk_mono f b m m' acc rest p n :
  m ⊆ m' →
  walk f b m acc rest = Found p n → walk f b m' acc rest = Found p n.
Proof.
  intros Hsub. walk_induction f rest acc;
    rewrite ?walk_nil, ?walk_cons; intros H.
  all: destruct (node_at m acc) as [na|] eqn:Hacc; [|done];
    rewrite (node_at_mono _ _ _ _ Hsub Hacc); try done.
  all: destruct na; try done; case_decide; [by apply IH|].
  all: destruct (m !! (acc ++ [c])) as [nc|] eqn:Hc;
    [|by destruct rest];
    rewrite (lookup_weaken _ _ _ _ Hc Hsub);
    destruct nc; eauto.
  all: destruct rest, b; simpl in *; eauto.
Qed.

(** More fuel does not change a walk that found its node. *)
Lemma walk_fuel f f' b m acc rest p n :
  (f ≤ f')%nat →
  walk f b m acc rest = Found p n → walk f' b m acc rest = Found p n.
Proof.
  revert f' acc rest.
  induction f as [|f IHf]; intros f' acc rest Hle; revert acc;
    (induction rest as [|c rest IH]; intros acc;
     [by rewrite !walk_nil|]);
    rewrite !walk_cons; intros H.
  all: destruct (node_at m acc) as [[]|]; try done;
    case_decide; [by apply IH|];
    destruct (m !! (acc ++ [c])) as [[]|]; eauto.
  - by destruct rest, b.
  - destruct (match rest with [] => negb b | _ => false end); [done|].
    destruct f' as [|f']; [lia|]. apply IHf; [lia|done].
Qed.

Lemma follow_last {X} (l : list X) :
  match l with [] => negb true | _ :: _ => false end = false.
Proof. by destruct l. Qed.

(** A walk that goes on past [a] found a directory at the end of [a]. *)
Lemma walk_app_dir f m acc a b p n :
  b ≠ [] →
  walk f true m acc (a ++ b) = Found p n →
  ∃ q, walk f true m acc a = Found q Dir.
Proof.
  intros Hb. revert acc a.
  induction f as [|f IHf]; intros acc a; revert acc;
    (induction a as [|c a IH]; intros acc; cbn [app];
     [destruct b as [|c b]; [done|]; rewrite walk_nil, walk_cons;
      destruct (node_at m acc) as [[]|]; try done; eauto|]);
    rewrite !walk_cons; intros H.
  all: destruct (node_at m acc) as [[]|]; try done;
    case_decide; [by apply IH|];
    destruct (m !! (acc ++ [c])) as [[]|] eqn:Hc; eauto.
  all: try by destruct a, b.
  rewrite follow_last in H |- *. rewrite app_assoc in H. by apply IHf in H.
Qed.

Lemma prefix_snoc_inv {X} (q l : list X) (x : X) :
  q `prefix_of` l ++ [x] → q `prefix_of` l ∨ q = l ++ [x].
Proof.
  intros [k Hk]. destruct (decide (k = [])) as [->|Hne].
  - right. by rewrite app_nil_r in Hk.
  - left. destruct (exists_last Hne) as (k' & y & ->).
    rewrite app_assoc in Hk. apply app_inj_tail in Hk as [-> _].
    by exists k'.
Qed.

Lemma prefixes_spec p q : q ∈ prefixes p ↔ q `prefix_of` p.
Proof.
  unfold prefixes. rewrite list_elem_of_fmap. split.
  - intros (k & -> & _). exists (drop k p). by rewrite take_drop.
  - intros [k ->]. exists (length q). split.
    + by rewrite take_app_length.
    + apply elem_of_seq. rewrite length_app. lia.
Qed.

(** A clean location, as it is used: no prefix of it is a link. *)
Lemma clean_spec m p :
  clean m p ↔
  Forall valid_name p ∧ ∀ q t, q `prefix_of` p → node_at m q ≠ Some (Link t).
Proof.
  unfold clean. split; intros [Hv Hl]; (split; [done|]).
  - intros q t Hq%prefixes_spec E.
    eapply Forall_forall in Hl; [|exact Hq]. by rewrite E in Hl.
  - apply Forall_forall. intros q Hq%prefixes_spec.
    destruct (node_at m q) as [[| |t]|] eqn:E; try done.
    by destruct (Hl q t).
Qed.

Lemma clean_nil m : clean m [].
Proof.
  apply clean_spec. split; [constructor|]. intros q t Hq.
  by apply prefix_nil_inv in Hq as ->.
Qed.

Lemma snoc_app {X} (l : list X) x k : (l ++ [x]) ++ k = l ++ x :: k.
Proof. by rewrite <- app_assoc. Qed.

Lemma clean_prefix m p q : clean m p → q `prefix_of` p → clean m q.
Proof.
  intros [Hv Hl]%clean_spec Hq. apply clean_spec. split.
  - destruct Hq as [k ->]. by apply Forall_app in Hv as [? _].
  - intros q' t Hq'. apply Hl. by etrans.
Qed.

Lemma clean_snoc m p c :
  clean m p → valid_name c → (∀ t, m !! (p ++ [c]) ≠ Some (Link t)) →
  clean m (p ++ [c]).
Proof.
  intros [Hv Hl]%clean_spec Hc Hn. apply clean_spec. split.
  - apply Forall_app. split; [done|]. by constructor.
  - intros q t [Hq| ->]%prefix_snoc_inv; [by apply Hl|].
    rewrite node_at_snoc. apply Hn.
Qed.

Lemma removelast_prefix {X} (l : list X) : removelast l `prefix_of` l.
Proof.
  destruct (decide (l = [])) as [->|Hne]; [done|].
  destruct (exists_last Hne) as (k & x & ->).
  rewrite removelast_last. by apply prefix_app_r.
Qed.

(** Along a clean location no link is followed: the walk ends where
    the components lead. *)
Lemma walk_clean f b m acc rest p n :
  clean m (acc ++ rest) →
  walk f b m acc rest = Found p n → p = acc ++ rest.
Proof.
  revert acc. induction rest as [|c rest IH]; intros acc Hcl.
  - rewrite walk_nil, app_nil_r. destruct (node_at m acc); by intros [=].
  - rewrite walk_cons. intros H.
    destruct (node_at m acc) as [[]|]; try done.
    pose proof (proj1 (clean_spec _ _) Hcl) as [Hv Hl].
    assert (valid_name c) as [_ Hdd].
    { by apply Forall_app in Hv as [_ [? _]%Forall_cons]. }
    rewrite decide_False in H by done.
    assert (Hnl : ∀ t, m !! (acc ++ [c]) ≠ Some (Link t)).
    { intros t. rewrite <- node_at_snoc. apply Hl.
      exists rest. by rewrite <- app_assoc. }
    destruct (m !! (acc ++ [c])) as [[]|] eqn:Hc.
    + apply IH in H; [by rewrite <- app_assoc in H|].
      by rewrite <- app_assoc.
    + apply IH in H; [by rewrite <- app_assoc in H|].
      by rewrite <- app_assoc.
    + by destruct (Hnl target).
    + by destruct rest.
Qed.

Lemma wf_valid m k n :
  wf_fs m → node_at m k = Some n → Forall valid_name k.
Proof.
  intros Hwf Hk. destruct k as [|c k]; [constructor|].
  by destruct (Hwf _ _ Hk).
Qed.

(** In a well-formed file system, what lies above an entry is a
    directory. *)
Lemma wf_ancestors m k n q :
  wf_fs m → node_at m k = Some n → q `prefix_of` k → q ≠ k →
  node_at m q = Some Dir.
Proof.
  intros Hwf. revert n q.
  induction k as [|c k IH] using rev_ind; intros n q Hk Hq Hne.
  - by apply prefix_nil_inv in Hq.
  - rewrite node_at_snoc in Hk. destruct (Hwf _ _ Hk) as (_ & Hpar & _).
    rewrite removelast_last in Hpar.
    apply prefix_snoc_inv in Hq as [Hq|?]; [|done].
    destruct (decide (q = k)) as [->|]; [done|]. by eapply IH.
Qed.

(** ... so every entry that is not a link is found by walking to it. *)
Lemma walk_straight f b m acc rest n :
  wf_fs m → node_at m (acc ++ rest) = Some n →
  (∀ t, n ≠ Link t) →
  walk f b m acc rest = Found (acc ++ rest) n.
Proof.
  intros Hwf Hn Hnl. revert acc Hn.
  induction rest as [|c rest IH]; intros acc Hn.
  - rewrite walk_nil. rewrite app_nil_r in *. by rewrite Hn.
  - rewrite walk_cons.
    assert (c :: rest ≠ []) as Hne by done.
    rewrite (wf_ancestors m _ n acc Hwf Hn).
    2:{ by apply prefix_app_r. }
    2:{ intros E. apply (f_equal length) in E.
        rewrite length_app in E. simpl in E. lia. }
    pose proof (wf_valid _ _ _ Hwf Hn) as Hv.
    apply Forall_app in Hv as [_ [[_ Hdd] _]%Forall_cons].
    rewrite decide_False by done.
    assert (∃ x, m !! (acc ++ [c]) = Some x ∧ ∀ t, x ≠ Link t)
      as (x & Hx & Hxl).
    { rewrite <- node_at_snoc.
      destruct rest as [|c' rest].
      - exists n. by rewrite Hn.
      - exists Dir. split; [|done].
        eapply (wf_ancestors m _ n); [done|exact Hn| |].
        + exists (c' :: rest). by rewrite <- app_assoc.
        + intros E. apply (f_equal length) in E.
          rewrite !length_app in E. simpl in E. lia. }
    rewrite Hx. rewrite <- snoc_app in Hn.
    specialize (IH _ Hn). rewrite snoc_app in IH.
    destruct x; try done. by destruct (Hxl target).
Qed.

Lemma clean_of_dir m k : wf_fs m → node_at m k = Some Dir → clean m k.
Proof.
  intros Hwf Hk. apply clean_spec. split; [by eapply wf_valid|].
  intros q t Hq. destruct (decide (q = k)) as [->|Hne]; [by rewrite Hk|].
  by rewrite (wf_ancestors m k Dir q).
Qed.

End Walk.

(** ** File systems under staging *)

Opaque walk.

Section Staging.
Implicit Types (m : gmap (list string) node) (acc p q r : path).

Lemma isfile_is_file w r : isfile w (abs r) = true ↔ is_file (fs w) r.
Proof.
  unfold isfile, is_file, stat, start_of. simpl. split.
  - intros H. repeat break_match_hyp; try done. eauto.
  - by intros [p ->].
Qed.

Lemma is_file_mono m m' r : m ⊆ m' → is_file m r → is_file m' r.
Proof. intros Hsub [p Hp]. exists p. by eapply walk_mono. Qed.

Lemma staged_over_refl m S : staged_over m S m.
Proof. by intros q Hq. Qed.

Lemma staged_over_sub m1 S m : staged_over m1 S m → m1 ⊆ m.
Proof.
  intros Hst. apply map_subseteq_spec. intros q n Hq.
  destruct (decide (m !! q = m1 !! q)) as [->|Hne]; [done|].
  destruct (Hst _ Hne) as [Hnone _]. by rewrite Hnone in Hq.
Qed.

Lemma staged_over_insert m1 S m r :
  staged_over m1 S m → m !! (S ++ [name r]) = None → r ≠ [] →
  is_file m r →
  staged_over m1 S (<[S ++ [name r] := Link r]> m).
Proof.
  intros Hst Hfresh Hr Hfile q Hq.
  assert (m ⊆ <[S ++ [name r] := Link r]> m) as Hsub
    by by apply insert_subseteq.
  destruct (decide (q = S ++ [name r])) as [->|Hne].
  - split.
    + pose proof (staged_over_sub _ _ _ Hst) as Hsub1.
      destruct (m1 !! (S ++ [name r])) eqn:E; [|done].
      by rewrite (lookup_weaken _ _ _ _ E Hsub1) in Hfresh.
    + exists r. rewrite lookup_insert_eq.
      split; [done|]. split; [done|]. split; [done|].
      eapply is_file_mono; [exact Hsub|exact Hfile].
  - rewrite lookup_insert_ne in Hq by done.
    destruct (Hst _ Hq) as (Hnone & r' & ? & ? & ? & ?).
    split; [done|]. exists r'. rewrite lookup_insert_ne by done.
    split; [done|]. split; [done|]. split; [done|].
    eapply is_file_mono; [exact Hsub|done].
Qed.

(** What is not a link under staging was there before. *)
Lemma staged_over_node m1 S m q n :
  staged_over m1 S m → node_at m q = Some n → (∀ t, n ≠ Link t) →
  node_at m1 q = Some n.
Proof.
  intros Hst Hq Hn. destruct q as [|c q]; [done|]. cbn [node_at] in *.
  destruct (decide (m !! (c :: q) = m1 !! (c :: q))) as [E|Hne];
    [by rewrite <- E|].
  destruct (Hst _ Hne) as (_ & r & _ & _ & Hl & _).
  rewrite Hl in Hq. simplify_eq. by destruct (Hn r).
Qed.

(** Staging can turn a clean location into a regular file in one way
    only: by making the link of that very name. *)
Lemma staged_walk m1 S m f rest acc p :
  staged_over m1 S m → (f ≤ max_links)%nat →
  clean m1 (acc ++ rest) →
  walk f true m acc rest = Found p File →
  walk f true m1 acc rest = Found p File ∨
  (is_Some (m !! (acc ++ rest)) ∧ ∃ n, acc ++ rest = S ++ [n]).
Proof.
  intros Hst Hf. revert acc.
  induction rest as [|c rest IH]; intros acc Hcl.
  - rewrite !walk_nil. intros H. left.
    destruct (node_at m acc) as [n|] eqn:Hacc; [|done].
    injection H as <- ->.
    by rewrite (staged_over_node _ _ _ _ _ Hst Hacc).
  - rewrite !walk_cons. intros H.
    destruct (node_at m acc) as [[]|] eqn:Hacc; try done.
    rewrite (staged_over_node _ _ _ _ _ Hst Hacc) by done.
    pose proof (proj1 (clean_spec _ _) Hcl) as [Hv Hl].
    assert (valid_name c) as [_ Hdd].
    { by apply Forall_app in Hv as [_ [? _]%Forall_cons]. }
    rewrite decide_False in H |- * by done.
    assert (Hnl : ∀ t, m1 !! (acc ++ [c]) ≠ Some (Link t)).
    { intros t. rewrite <- node_at_snoc. apply Hl.
      exists rest. by rewrite snoc_app. }
    destruct (m !! (acc ++ [c])) as [nc|] eqn:Hc; [|by destruct rest].
    destruct nc as [| |t].
    1,2: rewrite <- node_at_snoc in Hc;
      (eapply staged_over_node in Hc; [|done..]);
      rewrite node_at_snoc in Hc; rewrite Hc;
      rewrite <- snoc_app in Hcl; (apply IH in H; [|done]);
      by rewrite snoc_app in H.
    assert (m !! (acc ++ [c]) ≠ m1 !! (acc ++ [c])) as Hne.
    { rewrite Hc. intros E. by destruct (Hnl t). }
    destruct (Hst _ Hne) as (_ & r & _ & Hq & Hlk & [p' Hfile]).
    rewrite Hc in Hlk. injection Hlk as ->.
    rewrite follow_last in H.
    destruct rest as [|c' rest].
    + right. rewrite Hc. split; [done|]. by exists (name r).
    + destruct f as [|f]; [done|].
      apply walk_app_dir in H as [q' Hq']; [|done].
      apply (walk_fuel _ max_links) in Hq'; [|lia].
      by rewrite Hfile in Hq'.
Qed.

Lemma staged_is_file m1 S m r :
  staged_over m1 S m → clean m1 r → is_file m r →
  is_file m1 r ∨ (r = S ++ [name r] ∧ is_Some (m !! (S ++ [name r]))).
Proof.
  intros Hst Hcl [p Hp].
  apply (staged_walk m1 S) in Hp as [Hp|[Hs [n Hn]]]; try done.
  - left. by exists p.
  - right. simpl in *. by rewrite Hn, name_snoc, <- Hn.
Qed.

Lemma file_at_is_file m r : file_at m r = true ↔ is_file m r.
Proof.
  unfold file_at, is_file. split.
  - intros H. repeat break_match_hyp; try done. eauto.
  - by intros [p ->].
Qed.

Lemma isfile_file_at w r : isfile w (abs r) = file_at (fs w) r.
Proof. done. Qed.

Lemma lstat_name w n :
  valid_name n → node_at (fs w) (cwd w) = Some Dir →
  lstat w (Path n) =
    match fs w !! (cwd w ++ [n]) with
    | Some x => Found (cwd w ++ [n]) x
    | None => Missing (cwd w ++ [n])
    end.
Proof.
  intros Hn Hcwd. rewrite (Path_valid_name _ Hn).
  unfold lstat, start_of. simpl. rewrite walk_cons, Hcwd.
  rewrite decide_False by apply Hn.
  destruct (fs w !! (cwd w ++ [n])) as [[]|] eqn:E; try done;
    by rewrite walk_nil, node_at_snoc, E.
Qed.

(** Making the link [n] in the working directory. *)
Lemma symlink_name n r s :
  valid_name n →
  node_at (fs (st_world s)) (cwd (st_world s)) = Some Dir →
  symlink (Path n) r s =
    let w := st_world s in
    match fs w !! (cwd w ++ [n]) with
    | Some _ => (Raise (FileExistsError (cwd w ++ [n])), s)
    | None =>
        (Ok tt,
         {| st_world :=
              {| fs := <[cwd w ++ [n] := Link r]> (fs w); cwd := cwd w |};
            st_trace := st_trace s ++ [EvSymlink (cwd w ++ [n]) r] |})
    end.
Proof.
  intros Hn Hcwd. unfold symlink, writes, symlink_to.
  rewrite (lstat_name _ _ Hn Hcwd).
  by destruct (fs (st_world s) !! (cwd (st_world s) ++ [n])).
Qed.

Lemma staging_cwd_dir m1 S w :
  staging m1 S w → node_at (fs w) (cwd w) = Some Dir.
Proof.
  intros (-> & Hdir & Hst). eapply node_at_mono; [|done].
  by eapply staged_over_sub.
Qed.

Lemma is_file_nonempty m r : is_file m r → r ≠ [].
Proof. intros [p Hp] ->. by rewrite walk_nil in Hp. Qed.

(** One more link keeps the process staging. *)
Lemma staging_link m1 S w r :
  staging m1 S w → is_file (fs w) r → fs w !! (S ++ [name r]) = None →
  staging m1 S {| fs := <[S ++ [name r] := Link r]> (fs w); cwd := cwd w |}.
Proof.
  intros (Hcwd & Hdir & Hst) Hfile Hfresh. split; [done|]. split; [done|].
  simpl. apply staged_over_insert; try done. by eapply is_file_nonempty.
Qed.

Lemma link_input_files_cons r files s :
  link_input_files (r :: files) s =
    if isfile (st_world s) (abs r)
    then (symlink (Path (name r)) r ≫= λ _, link_input_files files) s
    else (Raise (missing_file r), s).
Proof. simpl. unfold_m. by destruct (isfile _ _). Qed.

Lemma link_opt_input_files_cons r files s :
  link_opt_input_files (r :: files) s =
    if isfile (st_world s) (abs r)
    then (symlink (Path (name r)) r ≫= λ _, link_opt_input_files files) s
    else link_opt_input_files files s.
Proof. simpl. unfold_m. by destruct (isfile _ _). Qed.

(** The step on a file that is there: what the code does with the
    link name. *)
Lemma link_present m1 S r s (k : M unit) :
  staging m1 S (st_world s) → Forall valid_name r →
  isfile (st_world s) (abs r) = true →
  (symlink (Path (name r)) r ≫= λ _, k) s =
    match fs (st_world s) !! (S ++ [name r]) with
    | Some _ => (Raise (FileExistsError (S ++ [name r])), s)
    | None =>
        k {| st_world :=
               {| fs := <[S ++ [name r] := Link r]> (fs (st_world s));
                  cwd := cwd (st_world s) |};
             st_trace := st_trace s ++ [EvSymlink (S ++ [name r]) r] |}
    end.
Proof.
  intros Hst Hcl Hfile%isfile_is_file. unfold mbind, M_bind.
  rewrite symlink_name.
  - destruct Hst as (<- & _). cbv zeta.
    by destruct (fs (st_world s) !! (cwd (st_world s) ++ [name r])).
  - apply name_valid; [by eapply is_file_nonempty|exact Hcl].
  - by eapply staging_cwd_dir.
Qed.

(** A mandatory file that is absent stops the first loop, whatever
    comes before it in the list. *)
Lemma link_input_files_absent m1 S files r s :
  staging m1 S (st_world s) → Forall (Forall valid_name) files →
  r ∈ files → clean m1 r → ¬ is_file m1 r →
  ∃ e s', link_input_files files s = (Raise e, s') ∧
          run_task_calls (st_trace s') = run_task_calls (st_trace s).
Proof.
  intros Hst Hcl Hin Hr Habs. revert s Hst.
  induction Hcl as [|r0 files Hr0 Hcl IH]; intros s Hst;
    [by apply elem_of_nil in Hin|].
  rewrite link_input_files_cons.
  destruct (isfile _ _) eqn:Hfile; [|by eauto].
  rewrite (link_present m1 S) by done.
  destruct (fs (st_world s) !! (S ++ [name r0])) eqn:Hfresh; [by eauto|].
  apply elem_of_cons in Hin as [->|Hin].
  - apply isfile_is_file in Hfile.
    destruct Hst as (_ & _ & Hso).
    apply (staged_is_file _ _ _ _ Hso Hr) in Hfile as [?|[_ [? Hs]]];
      [done|].
    by rewrite Hfresh in Hs.
  - edestruct (IH Hin) as (e & s' & -> & Htr).
    { simpl. apply staging_link; [done|by apply isfile_is_file|done]. }
    exists e, s'. split; [done|]. rewrite Htr. simpl.
    calls_arith.
Qed.

End Staging.

(** ** Making directories *)

Section Mkdir.
Implicit Types (m : gmap (list string) node) (p : PurePath).

Lemma grown_refl m : grown_by_dirs m m.
Proof. by intros q Hq. Qed.

Lemma grown_trans m m' m'' :
  grown_by_dirs m m' → grown_by_dirs m' m'' → grown_by_dirs m m''.
Proof.
  intros H1 H2 q Hq.
  destruct (decide (m' !! q = m !! q)) as [E|Hne].
  - rewrite <- E in Hq |- *. by apply H2.
  - destruct (H1 _ Hne) as [Hn Hd]. split; [done|].
    destruct (decide (m'' !! q = m' !! q)) as [->|Hne']; [done|].
    destruct (H2 _ Hne') as [Hn' _]. by rewrite Hn' in Hd.
Qed.

Lemma grown_sub m m' : grown_by_dirs m m' → m ⊆ m'.
Proof.
  intros Hg. apply map_subseteq_spec. intros q n Hq.
  destruct (decide (m' !! q = m !! q)) as [->|Hne]; [done|].
  destruct (Hg _ Hne) as [Hn _]. by rewrite Hn in Hq.
Qed.

Lemma grown_insert m q : m !! q = None → grown_by_dirs m (<[q := Dir]> m).
Proof.
  intros Hq k Hk. destruct (decide (k = q)) as [->|Hne].
  - by rewrite lookup_insert_eq.
  - by rewrite lookup_insert_ne in Hk.
Qed.

Lemma os_mkdir_grows p w w' :
  os_mkdir p w = Ok w' →
  cwd w' = cwd w ∧ grown_by_dirs (fs w) (fs w').
Proof.
  unfold os_mkdir. destruct (lstat w p) as [| q |] eqn:Hl; try done.
  intros [= <-]. split; [done|]. simpl. apply grown_insert.
  by apply walk_Missing in Hl as [? _].
Qed.

Lemma mkdir_leaf_grows p w r w' :
  mkdir_leaf p w = (r, w') →
  cwd w' = cwd w ∧ grown_by_dirs (fs w) (fs w').
Proof.
  unfold mkdir_leaf. destruct (os_mkdir p w) as [w1|e] eqn:Hmk.
  - intros [= <- <-]. by apply os_mkdir_grows in Hmk.
  - intros H. assert (w' = w) as ->.
    { destruct e; repeat break_match_hyp; by simplify_eq. }
    split; [done|apply grown_refl].
Qed.

(** Whether [mkdir(parents=True)] returns or raises, all it has done is
    to add directories. *)
Lemma mkdir_parents_grows b l w r w' :
  mkdir_parents b l w = (r, w') →
  cwd w' = cwd w ∧ grown_by_dirs (fs w) (fs w').
Proof.
  revert w r w'. induction l as [|c l IH]; intros w r w'; simpl;
    destruct (os_mkdir _ w) as [w1|e] eqn:Hmk.
  1,3: intros [= <- <-]; by apply os_mkdir_grows in Hmk.
  - intros H. assert (w' = w) as ->.
    { destruct e; repeat break_match_hyp; by simplify_eq. }
    split; [done|apply grown_refl].
  - intros H.
    destruct e;
      try (break_match_hyp; simplify_eq; (split; [done|apply grown_refl])).
    destruct (mkdir_parents b l w) as [[[]|e'] w2] eqn:Hpar.
    + apply IH in Hpar as [Hc Hg]. apply mkdir_leaf_grows in H as [Hc' Hg'].
      split; [congruence|by eapply grown_trans].
    + injection H as <- <-. by apply IH in Hpar.
Qed.

Lemma grown_node m m' q n :
  grown_by_dirs m m' → node_at m' q = Some n → n ≠ Dir →
  node_at m q = Some n.
Proof.
  intros Hg Hq Hn. destruct q as [|c q]; [done|]. cbn [node_at] in *.
  destruct (decide (m' !! (c :: q) = m !! (c :: q))) as [E|Hne];
    [by rewrite <- E|].
  destruct (Hg _ Hne) as [_ Hd]. congruence.
Qed.

Lemma grown_clean m m' r : grown_by_dirs m m' → clean m r → clean m' r.
Proof.
  intros Hg [Hv Hl]%clean_spec. apply clean_spec. split; [done|].
  intros q t Hq Hn. apply (Hl q t Hq). by eapply grown_node.
Qed.

(** Making directories does not make a regular file appear. *)
Lemma grown_is_file m m' r :
  wf_fs m → grown_by_dirs m m' → clean m r → is_file m' r → is_file m r.
Proof.
  intros Hwf Hg Hcl [p Hp].
  pose proof (walk_clean _ _ _ [] r _ _ (grown_clean _ _ _ Hg Hcl) Hp) as ->.
  apply walk_Found in Hp. simpl in Hp.
  apply (grown_node _ _ _ _ Hg) in Hp; [|done].
  exists r. by apply (walk_straight _ _ _ [] r File).
Qed.

Lemma mkdir_p_spec p s r s1 :
  mkdir_p p s = (r, s1) →
  st_trace s1 = st_trace s ∧ cwd (st_world s1) = cwd (st_world s) ∧
  grown_by_dirs (fs (st_world s)) (fs (st_world s1)).
Proof.
  unfold mkdir_p, Path_mkdir.
  destruct (mkdir_parents _ _ _) as [r' w'] eqn:Hmk.
  intros [= <- <-]. simpl. by apply mkdir_parents_grows in Hmk as [? ?].
Qed.

End Mkdir.

(** ** Entering the staging directory *)

Section Entering.
Implicit Types (m : gmap (list string) node) (s : state) (p : PurePath).

Lemma chdir_fs p s r s' :
  chdir p s = (r, s') → fs (st_world s') = fs (st_world s).
Proof.
  unfold chdir, writes, os_chdir. intros H.
  repeat break_match_hyp; by simplify_eq.
Qed.

Lemma chdir_abs_Found c s :
  stat (st_world s) (abs c) = Found c Dir →
  chdir (abs c) s
  = (Ok tt, {| st_world := {| fs := fs (st_world s); cwd := c |};
               st_trace := st_trace s ++ [EvChdir c] |}).
Proof. unfold chdir, writes, os_chdir. by intros ->. Qed.

Lemma stat_abs_fs w w' c :
  fs w' = fs w → stat w' (abs c) = stat w (abs c).
Proof. unfold stat, start_of. simpl. by intros ->. Qed.

Lemma chdir_calls p s r s' :
  chdir p s = (r, s') →
  run_task_calls (st_trace s') = run_task_calls (st_trace s).
Proof.
  unfold chdir, writes. intros H.
  destruct (os_chdir _ _); simplify_eq; [|done]. simpl.
  calls_arith.
Qed.

Lemma chdir_spec p s s1 :
  chdir p s = (Ok tt, s1) →
  fs (st_world s1) = fs (st_world s) ∧
  node_at (fs (st_world s1)) (cwd (st_world s1)) = Some Dir ∧
  st_trace s1 = st_trace s ++ [EvChdir (cwd (st_world s1))].
Proof.
  unfold chdir, writes, os_chdir. intros H.
  destruct (stat _ _) as [q []| |] eqn:Hst; simplify_eq. simpl.
  by apply walk_Found in Hst.
Qed.

(** What entering the directory does. *)
Lemma enter_spec p s s1 :
  enter p s = (Ok tt, s1) →
  os_getcwd (st_world s) = Ok (cwd (st_world s)) ∧
  grown_by_dirs (fs (st_world s)) (fs (st_world s1)) ∧
  node_at (fs (st_world s1)) (cwd (st_world s1)) = Some Dir ∧
  st_trace s1 = st_trace s ++ [EvChdir (cwd (st_world s1))].
Proof.
  unfold enter. unfold_m. intros H.
  destruct (os_getcwd _) as [c0|] eqn:Hg; [|done].
  destruct (mkdir_p p s) as [[[]|] s0] eqn:Hmk; [|done].
  apply mkdir_p_spec in Hmk as (Htr & Hc & Hgr).
  apply chdir_spec in H as (Hfs & Hd & Htr').
  split.
  { unfold os_getcwd in *. by repeat break_match_hyp; simplify_eq. }
  rewrite Hfs, Htr'. rewrite Hfs in Hd. by rewrite Htr.
Qed.

Lemma set_directory_enter {A} p (body : M A) s s1 :
  enter p s = (Ok tt, s1) →
  set_directory p body s = leave (cwd (st_world s)) (body s1).
Proof.
  unfold leave.
  intros H. pose proof (enter_spec _ _ _ H) as (Hg & _).
  unfold enter, set_directory in *. unfold tries, mbind, M_bind in *.
  rewrite Hg in *.
  destruct (mkdir_p p s) as [[[]|] s0]; [|done]. by rewrite H.
Qed.

(** When the directory cannot be entered, the block does not run. *)
Lemma set_directory_not_entered {A} p (body : M A) s e s1 :
  enter p s = (Raise e, s1) →
  ∃ e' s', set_directory p body s = (Raise e', s') ∧
           run_task_calls (st_trace s') = run_task_calls (st_trace s).
Proof.
  unfold enter, set_directory. unfold tries, mbind, M_bind. intros H.
  destruct (os_getcwd _) as [c0|]; [|by eauto].
  destruct (mkdir_p p s) as [[[]|] s0] eqn:Hmk;
    apply mkdir_p_spec in Hmk as (Htr & _).
  2:{ eexists _, _. split; [done|]. by rewrite Htr. }
  rewrite H.
  destruct (chdir (abs c0) s1) as [[[]|] s3] eqn:Hback;
    apply chdir_calls in Hback; apply chdir_calls in H;
    eexists _, _; (split; [done|]); congruence.
Qed.

End Entering.

(** ** The scoped working directory *)

Section SetDirectory.
Context {A : Type}.

Lemma mkdir_p_cwd p s r s' :
  mkdir_p p s = (r, s') → cwd (st_world s') = cwd (st_world s).
Proof. by intros (_ & ? & _)%mkdir_p_spec. Qed.

(** C4, as the code has it.  When [set_directory] is left (with a value
    or with an exception) and the directory the process came from is
    still a directory at its location, the working directory is that
    directory again; and if the block was entered, what comes out of
    the [with] statement is what came out of the block, value or
    exception, over the file system the block left.  When the block was
    entered and [os.chdir] in the [finally] clause fails, its exception
    comes out of the [with] statement in place of what came out of the
    block, value or exception, and the process stays where the block left
    it. *)
Theorem set_directory_restores p (body : M A) s r s' :
  set_directory p body s = (r, s') →
  (stat (st_world s') (abs (cwd (st_world s)))
   = Found (cwd (st_world s)) Dir →
   cwd (st_world s') = cwd (st_world s) ∧
   ∀ s1, enter p s = (Ok tt, s1) →
         ∃ s2, body s1 = (r, s2) ∧ fs (st_world s') = fs (st_world s2)) ∧
  (∀ s1 rb s2 e,
     enter p s = (Ok tt, s1) → body s1 = (rb, s2) →
     os_chdir (abs (cwd (st_world s))) (st_world s2) = Raise e →
     r = Raise e ∧ s' = s2).
Proof.
  intros H. split.
  2:{ intros s1 rb s2 e He Hb Hch.
      rewrite (set_directory_enter _ _ _ _ He), Hb in H.
      unfold leave, chdir, writes in H. rewrite Hch in H.
      by injection H as <- <-. }
  revert H. unfold enter.
  unfold set_directory, tries. intros H Hstat.
  destruct (os_getcwd (st_world s)) as [c0|e0] eqn:Hg.
  2:{ simplify_eq. apply walk_Found in Hstat.
      unfold os_getcwd in Hg. by rewrite Hstat in Hg. }
  assert (c0 = cwd (st_world s)) as ->.
  { unfold os_getcwd in Hg. by repeat break_match_hyp; simplify_eq. }
  destruct (mkdir_p p s) as [[[]|e] s1] eqn:Hmk; simplify_eq.
  2:{ split; [by eapply mkdir_p_cwd|]. unfold_m. intros s2.
      rewrite Hg, Hmk. done. }
  pose proof (mkdir_p_cwd _ _ _ _ Hmk) as Hc1.
  unfold mbind, M_bind in H.
  destruct (chdir p s1) as [[[]|e] s1'] eqn:Hch.
  - destruct (body s1') as [rb s2] eqn:Hb.
    assert (Hst : stat (st_world s2) (abs (cwd (st_world s)))
                  = Found (cwd (st_world s)) Dir).
    { destruct (chdir _ s2) as [[[]|e] s3] eqn:Hfin; simplify_eq;
        erewrite <- stat_abs_fs; try exact Hstat;
        by apply chdir_fs in Hfin. }
    rewrite (chdir_abs_Found _ _ Hst) in H. simplify_eq. split; [done|].
    unfold_m. intros s1x. rewrite Hg, Hmk, Hch. intros [= <-]. eauto.
  - assert (Hst : stat (st_world s1') (abs (cwd (st_world s)))
                  = Found (cwd (st_world s)) Dir).
    { destruct (chdir _ s1') as [[[]|e'] s3] eqn:Hfin; simplify_eq;
        erewrite <- stat_abs_fs; try exact Hstat;
        by apply chdir_fs in Hfin. }
    rewrite (chdir_abs_Found _ _ Hst) in H. simplify_eq. split; [done|].
    unfold_m. intros s1x. rewrite Hg, Hmk, Hch. done.
Qed.

End SetDirectory.

Section SetDirectoryExamples.
Import Examples.

(** C4, witness: a failing block under a relative target. *)
Lemma set_directory_restores_witness :
  let s := mkState world_old [] in
  let p := Path "task" in
  let out := set_directory p block_failing s in
  set_directory p block_failing s = (out.1, out.2) ∧
  (stat (st_world out.2) (abs (cwd (st_world s)))
   = Found (cwd (st_world s)) Dir →
   cwd (st_world out.2) = cwd (st_world s) ∧
   ∀ s1, enter p s = (Ok tt, s1) →
         ∃ s2, block_failing s1 = (out.1, s2) ∧
               fs (st_world out.2) = fs (st_world s2)) ∧
  (∀ s1 rb s2 e,
     enter p s = (Ok tt, s1) → block_failing s1 = (rb, s2) →
     os_chdir (abs (cwd (st_world s))) (st_world s2) = Raise e →
     out.1 = Raise e ∧ out.2 = s2).
Proof.
  intros s p out.
  assert (H : set_directory p block_failing s = (out.1, out.2))
    by apply surjective_pairing.
  split; [exact H|].
  exact (set_directory_restores p block_failing s out.1 out.2 H).
Defined.

(** C4, counterexample: the block removes the directory the process
    came from and then raises [TransientError].  The [finally] clause
    cannot change back: the working directory stays in the target, and
    the [FileNotFoundError] of [os.chdir] comes out of the [with]
    statement in place of the block's own exception. *)
Lemma set_directory_origin_removed :
  let s := mkState world_old [] in
  let p := Path "/w/task" in
  let out := set_directory p block_removing_origin s in
  (block_removing_origin (enter p s).2).1
  = Raise (TransientError "fp failed") ∧
  out.1 = Raise (FileNotFoundError ["w"; "old"]) ∧
  cwd (st_world s) = ["w"; "old"] ∧
  cwd (st_world out.2) = ["w"; "task"].
Proof. vm_compute. done. Qed.

End SetDirectoryExamples.

(** ** Before the [with] statement *)

Section Prepare.
Context {D : Dargs} {P : Pathlib} {T : FpTask}.

Lemma resolve_under_spec tp names s rs s' :
  resolve_under tp names s = (Ok rs, s') →
  Forall2 (λ n r, resolve (truediv tp (Path n)) (st_world s) = Ok r)
    names rs.
Proof.
  unfold resolve_under. revert rs s'.
  induction names as [|n names IH]; intros rs s'; simpl; unfold_m.
  - intros [= <- _]. constructor.
  - destruct (resolve _ _) as [r|] eqn:Hr; [|done].
    destruct (mapM (M:=M) _ names s) as [[l|e] s1] eqn:E; [|done].
    intros [= <- _]. constructor; [done|]. by eapply IH.
Qed.

(** In a well-formed file system the resolved locations are made of
    proper names. *)
Lemma resolve_under_valid tp names s rs s' :
  wf_fs (fs (st_world s)) →
  resolve_under (Path tp) names s = (Ok rs, s') →
  Forall (Forall valid_name) rs.
Proof.
  intros Hwf H%resolve_under_spec.
  induction H as [|n r names rs Hr _ IH]; constructor; [|done].
  eapply resolve_normal; [done| |done].
  apply truediv_parts_valid; apply Path_parts_valid.
Qed.

Lemma prepare_state ip s r s' : prepare ip s = (r, s') → s' = s.
Proof.
  unfold prepare. unfold_m. intros H.
  destruct (getitem _ _); [|by simplify_eq].
  destruct (normalize_config _ _); [|by simplify_eq].
  destruct (resolve_under _ input_files s) as [[rs|] s1] eqn:E1;
    apply resolve_under_state in E1 as ->; [|by simplify_eq].
  destruct (items _); [|by simplify_eq].
  destruct (resolve_under _ _ s) as [[os|] s2] eqn:E2;
    apply resolve_under_state in E2 as ->; by simplify_eq.
Qed.

(** [execute] is: prepare, then stage and run in the task directory,
    then return the path. *)
Lemma execute_prepare ip s :
  execute ip s =
    match prepare ip s with
    | (Ok (rc, rs, os), s1) =>
        (set_directory (Path (ip_task_name ip)) (staged_run ip rc rs os)
           ≫= λ d, mret (truediv (Path (ip_task_name ip)) (Path d))) s1
    | (Raise e, s1) => (Raise e, s1)
    end.
Proof.
  unfold execute, execute_normalized, prepare. unfold_m.
  destruct (getitem _ _); [|done].
  destruct (normalize_config _ _); [|done].
  destruct (resolve_under _ input_files s) as [[rs|] s1] eqn:E1; [|done].
  destruct (items _); [|done]. rewrite artifact_keys. simpl.
  by destruct (resolve_under _ _ s1) as [[os|] s2].
Qed.

Lemma prepare_spec ip s rc rs os s' :
  wf_fs (fs (st_world s)) →
  prepare ip s = (Ok (rc, rs, os), s') →
  Forall (Forall valid_name) rs ∧
  Forall (Forall valid_name) os ∧
  Forall2 (λ n r, resolve (truediv (Path (ip_task_path ip)) (Path n))
                    (st_world s) = Ok r) input_files rs.
Proof.
  intros Hwf. unfold prepare. unfold_m. intros H.
  destruct (getitem _ _); [|done].
  destruct (normalize_config _ _); [|done].
  destruct (resolve_under _ input_files s) as [[rs'|] s1] eqn:E1; [|done].
  pose proof (resolve_under_state _ _ _ _ _ E1) as ->.
  destruct (items _); [|done].
  destruct (resolve_under _ _ s) as [[os'|] s2] eqn:E2; [|done].
  simplify_eq. split; [by eapply resolve_under_valid|].
  split; [by eapply resolve_under_valid|]. by eapply resolve_under_spec.
Qed.

(** The optional files are the keys of [optional_artifact], resolved
    under [task_path]. *)
Lemma prepare_keys ip s rc rs os s' :
  prepare ip s = (Ok (rc, rs, os), s') →
  ∃ oa, ip_optional_artifact ip = Some oa ∧
        Forall2 (λ (kv : string * PurePath) r,
                   resolve (truediv (Path (ip_task_path ip)) (Path kv.1))
                     (st_world s) = Ok r) oa os.
Proof.
  unfold prepare. unfold_m. intros H.
  destruct (getitem _ _); [|done].
  destruct (normalize_config _ _); [|done].
  destruct (resolve_under _ input_files s) as [[rs'|] s1] eqn:E1; [|done].
  pose proof (resolve_under_state _ _ _ _ _ E1) as ->.
  destruct (ip_optional_artifact ip) as [oa|]; [|done]. simpl in H.
  destruct (resolve_under _ _ s) as [[os'|] s2] eqn:E2; [|done].
  simplify_eq. exists oa. split; [done|].
  apply resolve_under_spec in E2. by apply Forall2_fmap_l in E2.
Qed.

End Prepare.

(** ** The two loops of the [with] block *)

Section Loops.
Implicit Types (m : gmap (list string) node) (s : state) (r : path).

Lemma with_links_lookup_ne S rs m k :
  (∀ r, r ∈ rs → S ++ [name r] ≠ k) →
  with_links S rs m !! k = m !! k.
Proof.
  revert m. induction rs as [|r rs IH]; intros m Hk; [done|].
  unfold with_links in *. simpl. rewrite IH.
  - apply lookup_insert_ne. apply Hk. by left.
  - intros r' Hr'. apply Hk. by right.
Qed.

Lemma link_key_ne S r r' : name r ≠ name r' → S ++ [name r] ≠ S ++ [name r'].
Proof. intros Hne E. by apply app_inv_head in E as [= ?]. Qed.

(** With distinct names, every file of the list has its link. *)
Lemma with_links_lookup S rs m r :
  NoDup (name <$> rs) → r ∈ rs →
  with_links S rs m !! (S ++ [name r]) = Some (Link r).
Proof.
  revert m. induction rs as [|r0 rs IH]; intros m Hnd Hin;
    [by apply elem_of_nil in Hin|].
  rewrite fmap_cons in Hnd. apply NoDup_cons in Hnd as [Hr0 Hnd].
  change (with_links S (r0 :: rs) m)
    with (with_links S rs (<[S ++ [name r0] := Link r0]> m)).
  apply elem_of_cons in Hin as [->|Hin]; [|by apply IH].
  rewrite with_links_lookup_ne; [by rewrite lookup_insert_eq|].
  intros r' Hr'. apply link_key_ne. intros E. apply Hr0. rewrite <- E.
  apply list_elem_of_fmap. eauto.
Qed.

Lemma run_task_calls_links S rs : run_task_calls (link_events S rs) = 0%nat.
Proof. by induction rs. Qed.

Lemma with_links_app S a b m :
  with_links S (a ++ b) m = with_links S b (with_links S a m).
Proof. unfold with_links. by rewrite foldl_app. Qed.

Lemma state_eta s S :
  cwd (st_world s) = S →
  s = {| st_world := {| fs := fs (st_world s); cwd := S |};
         st_trace := st_trace s ++ [] |}.
Proof. destruct s as [[m c] tr]. simpl. intros ->. by rewrite app_nil_r. Qed.

(** The first loop keeps the process staging and only adds entries. *)
Lemma link_input_files_staging m1 S files s s' :
  staging m1 S (st_world s) → Forall (Forall valid_name) files →
  link_input_files files s = (Ok tt, s') →
  staging m1 S (st_world s') ∧ fs (st_world s) ⊆ fs (st_world s') ∧
  run_task_calls (st_trace s') = run_task_calls (st_trace s).
Proof.
  intros Hst Hcl. revert s Hst.
  induction Hcl as [|r files Hr Hcl IH]; intros s Hst.
  - simpl. unfold_m. by intros [= <-].
  - rewrite link_input_files_cons.
    destruct (isfile _ _) eqn:Hfile; [|done].
    rewrite (link_present m1 S) by done.
    destruct (fs (st_world s) !! (S ++ [name r])) eqn:Hfresh; [done|].
    intros H. apply IH in H as (Hst' & Hsub & Hcalls).
    + split; [done|]. simpl in *. split.
      * etrans; [|exact Hsub]. by apply insert_subseteq.
      * rewrite Hcalls. calls_arith.
    + simpl. apply staging_link; [done|by apply isfile_is_file|done].
Qed.

(** The first loop when every file is there and every name is free. *)
Lemma link_input_files_all m1 S rs s :
  staging m1 S (st_world s) → Forall (Forall valid_name) rs →
  Forall (is_file m1) rs → NoDup (name <$> rs) →
  Forall (λ r, fs (st_world s) !! (S ++ [name r]) = None) rs →
  link_input_files rs s =
    (Ok tt,
     {| st_world := {| fs := with_links S rs (fs (st_world s)); cwd := S |};
        st_trace := st_trace s ++ link_events S rs |}).
Proof.
  intros Hst Hcl. revert s Hst.
  induction Hcl as [|r rs Hr Hcl IH]; intros s Hst Hfile Hnd Hfresh.
  - simpl. unfold_m. f_equal. apply state_eta. apply Hst.
  - apply Forall_cons in Hfile as [Hf Hfile].
    apply Forall_cons in Hfresh as [Hfr Hfresh].
    rewrite fmap_cons in Hnd. apply NoDup_cons in Hnd as [Hr0 Hnd].
    assert (is_file (fs (st_world s)) r) as Hcur.
    { eapply is_file_mono; [|done]. eapply staged_over_sub, Hst. }
    rewrite link_input_files_cons.
    rewrite (proj2 (isfile_is_file _ _) Hcur).
    rewrite (link_present m1 S) by (done || by apply isfile_is_file).
    rewrite Hfr. rewrite IH; try done.
    + unfold with_links, link_events. simpl. by rewrite <- app_assoc.
    + simpl. by apply staging_link.
    + simpl. apply Forall_forall. intros r' Hr'.
      rewrite lookup_insert_ne; [by eapply Forall_forall in Hfresh|].
      apply link_key_ne. intros E. apply Hr0. rewrite E.
      apply list_elem_of_fmap. eauto.
Qed.

(** The second loop when the files that are there have free names, and
    the files that are not there pass through no link and are not looked
    up in the staging directory itself. *)
Lemma link_opt_input_files_all m1 S os s :
  staging m1 S (st_world s) → Forall (Forall valid_name) os →
  Forall (λ r, file_at m1 r = false → clean m1 r ∧ outside S r) os →
  NoDup (name <$> filter (λ r, file_at m1 r = true) os) →
  Forall (λ r, fs (st_world s) !! (S ++ [name r]) = None)
    (filter (λ r, file_at m1 r = true) os) →
  link_opt_input_files os s =
    (Ok tt,
     {| st_world :=
          {| fs := with_links S (filter (λ r, file_at m1 r = true) os)
                     (fs (st_world s));
             cwd := S |};
        st_trace :=
          st_trace s
          ++ link_events S (filter (λ r, file_at m1 r = true) os) |}).
Proof.
  intros Hst Hcl. revert s Hst.
  induction Hcl as [|r os Hr Hcl IH]; intros s Hst Hout Hnd Hfresh.
  - simpl. unfold_m. f_equal. apply state_eta. apply Hst.
  - apply Forall_cons in Hout as [Ho Hout].
    rewrite link_opt_input_files_cons. rewrite filter_cons in *.
    destruct (decide (file_at m1 r = true)) as [Hf|Hf].
    + apply file_at_is_file in Hf.
      apply Forall_cons in Hfresh as [Hfr Hfresh].
      rewrite fmap_cons in Hnd. apply NoDup_cons in Hnd as [Hr0 Hnd].
      assert (is_file (fs (st_world s)) r) as Hcur.
      { eapply is_file_mono; [|done]. eapply staged_over_sub, Hst. }
      rewrite (proj2 (isfile_is_file _ _) Hcur).
      rewrite (link_present m1 S) by (done || by apply isfile_is_file).
      rewrite Hfr. rewrite IH; try done.
      * unfold with_links, link_events. simpl. by rewrite <- app_assoc.
      * simpl. by apply staging_link.
      * simpl. apply Forall_forall. intros r' Hr'.
        rewrite lookup_insert_ne; [by eapply Forall_forall in Hfresh|].
        apply link_key_ne. intros E. apply Hr0. rewrite E.
        apply list_elem_of_fmap. eauto.
    + destruct (isfile (st_world s) (abs r)) eqn:Hcur; [|by apply IH].
      apply not_true_is_false in Hf. destruct (Ho Hf) as [Hclean Houtside].
      apply isfile_is_file in Hcur. destruct Hst as (_ & _ & Hso).
      apply (staged_is_file _ _ _ _ Hso Hclean) in Hcur as [Hcur|[E _]].
      * apply file_at_is_file in Hcur. congruence.
      * destruct Houtside. rewrite E. by apply prefix_app_r.
Qed.

(** A file that is there, with its name taken in the staging
    directory, stops the first loop. *)
Lemma link_input_files_taken m1 S files r s :
  staging m1 S (st_world s) → Forall (Forall valid_name) files →
  r ∈ files → is_file m1 r →
  is_Some (fs (st_world s) !! (S ++ [name r])) →
  ∃ e s', link_input_files files s = (Raise e, s') ∧
          run_task_calls (st_trace s') = run_task_calls (st_trace s).
Proof.
  intros Hst Hcl Hin Hfile. revert s Hst.
  induction Hcl as [|r0 files Hr0 Hcl IH]; intros s Hst Htaken;
    [by apply elem_of_nil in Hin|].
  rewrite link_input_files_cons.
  destruct (isfile _ _) eqn:Hcur; [|by eauto].
  rewrite (link_present m1 S) by done.
  destruct (fs (st_world s) !! (S ++ [name r0])) eqn:Hfresh; [by eauto|].
  apply elem_of_cons in Hin as [->|Hin].
  { rewrite Hfresh in Htaken. by destruct Htaken. }
  edestruct (IH Hin) as (e & s' & -> & Htr).
  - simpl. apply staging_link; [done|by apply isfile_is_file|done].
  - simpl. destruct Htaken as [x Hx]. exists x.
    eapply lookup_weaken; [done|]. by apply insert_subseteq.
  - exists e, s'. split; [done|]. rewrite Htr. simpl.
    calls_arith.
Qed.

(** ... and the second loop as well. *)
Lemma link_opt_input_files_taken m1 S files r s :
  staging m1 S (st_world s) → Forall (Forall valid_name) files →
  r ∈ files → is_file m1 r →
  is_Some (fs (st_world s) !! (S ++ [name r])) →
  ∃ e s', link_opt_input_files files s = (Raise e, s') ∧
          run_task_calls (st_trace s') = run_task_calls (st_trace s).
Proof.
  intros Hst Hcl Hin Hfile. revert s Hst.
  induction Hcl as [|r0 files Hr0 Hcl IH]; intros s Hst Htaken;
    [by apply elem_of_nil in Hin|].
  rewrite link_opt_input_files_cons.
  destruct (isfile _ _) eqn:Hcur.
  - rewrite (link_present m1 S) by done.
    destruct (fs (st_world s) !! (S ++ [name r0])) eqn:Hfresh; [by eauto|].
    apply elem_of_cons in Hin as [->|Hin].
    { rewrite Hfresh in Htaken. by destruct Htaken. }
    edestruct (IH Hin) as (e & s' & -> & Htr).
    + simpl. apply staging_link; [done|by apply isfile_is_file|done].
    + simpl. destruct Htaken as [x Hx]. exists x.
      eapply lookup_weaken; [done|]. by apply insert_subseteq.
    + exists e, s'. split; [done|]. rewrite Htr. simpl.
      calls_arith.
  - apply elem_of_cons in Hin as [->|Hin]; [|by apply IH].
    assert (is_file (fs (st_world s)) r0) as Hc.
    { eapply is_file_mono; [|done]. eapply staged_over_sub, Hst. }
    apply isfile_is_file in Hc. congruence.
Qed.

(** The [finally] clause, when the directory to go back to is there. *)
Lemma leave_back {A} c0 (r : result A) s2 :
  stat (st_world s2) (abs c0) = Found c0 Dir →
  leave c0 (r, s2) =
    (r, {| st_world := {| fs := fs (st_world s2); cwd := c0 |};
           st_trace := st_trace s2 ++ [EvChdir c0] |}).
Proof. intros H. unfold leave. by rewrite (chdir_abs_Found _ _ H). Qed.

Lemma leave_raise {A} c0 e s2 :
  ∃ e' s3, leave (A:=A) c0 (Raise e, s2) = (Raise e', s3) ∧
           run_task_calls (st_trace s3) = run_task_calls (st_trace s2).
Proof.
  unfold leave. destruct (chdir _ _) as [[[]|e'] s3] eqn:H;
    apply chdir_calls in H; eauto.
Qed.

Lemma leave_calls {A} c0 (r : result A) s2 (r' : result A) s' :
  leave c0 (r, s2) = (r', s') →
  run_task_calls (st_trace s') = run_task_calls (st_trace s2) ∧
  (∀ a, r' = Ok a → r = Ok a).
Proof.
  unfold leave. destruct (chdir _ _) as [[[]|e] s3] eqn:H;
    apply chdir_calls in H; intros [= <- <-]; by split.
Qed.

Lemma leave_fs {A} c0 (r : result A) s2 (r' : result A) s' :
  leave c0 (r, s2) = (r', s') → fs (st_world s') = fs (st_world s2).
Proof.
  unfold leave. destruct (chdir _ _) as [[[]|e] s3] eqn:H;
    apply chdir_fs in H; by intros [= <- <-].
Qed.

(** In a well-formed file system that only gains entries, the
    directory the process came from can be walked to again. *)
Lemma stat_origin w w' :
  wf_fs (fs w) → os_getcwd w = Ok (cwd w) → fs w ⊆ fs w' →
  stat w' (abs (cwd w)) = Found (cwd w) Dir.
Proof.
  intros Hwf Hg Hsub. unfold stat, start_of. simpl.
  eapply walk_mono; [done|].
  apply (walk_straight _ _ _ [] (cwd w) Dir); [done| |done].
  unfold os_getcwd in Hg. simpl. by repeat break_match_hyp.
Qed.

End Loops.

(** ** Staging and running *)

Section Execute.
Context {D : Dargs} {P : Pathlib} {T : FpTask}.
Implicit Types (s : state) (r : path).

Lemma enter_staging p s s1 :
  enter p s = (Ok tt, s1) →
  staging (fs (st_world s1)) (cwd (st_world s1)) (st_world s1).
Proof.
  intros (_ & _ & Hd & _)%enter_spec.
  split; [done|]. split; [done|]. apply staged_over_refl.
Qed.

(** A file that is there is still there in the task directory. *)
Lemma entered_is_file p s s1 r :
  enter p s = (Ok tt, s1) →
  file_at (fs (st_world s)) r = true → is_file (fs (st_world s1)) r.
Proof.
  intros (_ & Hg & _)%enter_spec Hf%file_at_is_file.
  eapply is_file_mono; [|done]. by apply grown_sub.
Qed.

(** Making the staging directory does not change which files exist. *)
Lemma entered_file_at p s s1 r :
  wf_fs (fs (st_world s)) → enter p s = (Ok tt, s1) →
  clean (fs (st_world s)) r →
  file_at (fs (st_world s1)) r = file_at (fs (st_world s)) r.
Proof.
  intros Hwf He Hcl. pose proof (enter_spec _ _ _ He) as (_ & Hg & _).
  destruct (file_at (fs (st_world s)) r) eqn:E.
  - apply file_at_is_file. by eapply entered_is_file.
  - destruct (file_at (fs (st_world s1)) r) eqn:E1; [|done].
    apply file_at_is_file, (grown_is_file _ _ _ Hwf Hg Hcl) in E1.
    apply file_at_is_file in E1. congruence.
Qed.

Lemma filter_ext_in {X} (F G : X → Prop) `{∀ x, Decision (F x)}
    `{∀ x, Decision (G x)} (l : list X) :
  Forall (λ x, F x ↔ G x) l → filter F l = filter G l.
Proof.
  induction 1 as [|x l Hx Hl IH]; [done|].
  rewrite !filter_cons, IH.
  destruct Hx. destruct (decide (F x)), (decide (G x)); try done; tauto.
Qed.

(** [execute], once it is prepared and in the task directory. *)
Lemma execute_staged ip s rc rs os s0 s1 :
  prepare ip s = (Ok (rc, rs, os), s0) →
  enter (Path (ip_task_name ip)) s = (Ok tt, s1) →
  execute ip s =
    match leave (cwd (st_world s)) (staged_run ip rc rs os s1) with
    | (Ok d, s3) => (Ok (truediv (Path (ip_task_name ip)) (Path d)), s3)
    | (Raise e, s3) => (Raise e, s3)
    end.
Proof.
  intros Hp He. pose proof (prepare_state _ _ _ _ Hp) as ->.
  rewrite execute_prepare, Hp. unfold mbind, M_bind.
  by rewrite (set_directory_enter _ _ _ _ He).
Qed.

(** An absent mandatory file: [execute] raises, and [run_task] is
    not called. *)
Lemma execute_absent ip s f r :
  wf_fs (fs (st_world s)) → f ∈ input_files →
  resolve (truediv (Path (ip_task_path ip)) (Path f)) (st_world s) = Ok r →
  clean (fs (st_world s)) r →
  file_at (fs (st_world s)) r = false →
  ∃ e s', execute ip s = (Raise e, s') ∧
          run_task_calls (st_trace s') = run_task_calls (st_trace s).
Proof.
  intros Hwf Hf Hres Hclean Habs. rewrite execute_prepare.
  destruct (prepare ip s) as [[[[rc rs] os]|e] s0] eqn:Hp;
    pose proof (prepare_state _ _ _ _ Hp) as ->; [|by eauto].
  destruct (prepare_spec _ _ _ _ _ _ Hwf Hp) as (Hrs & _ & Hall).
  assert (r ∈ rs) as Hr.
  { apply list_elem_of_lookup in Hf as [i Hi].
    destruct (Forall2_lookup_l _ _ _ _ _ Hall Hi) as (r' & Hri & Hrr).
    rewrite Hres in Hrr. injection Hrr as <-.
    by eapply list_elem_of_lookup_2. }
  unfold mbind, M_bind.
  destruct (enter (Path (ip_task_name ip)) s) as [[[]|e] s1] eqn:He.
  2:{ eapply set_directory_not_entered in He as (e' & s' & -> & ?).
      by eauto. }
  rewrite (set_directory_enter _ _ _ _ He).
  pose proof (enter_spec _ _ _ He) as (_ & Hg & _ & Htr).
  edestruct (link_input_files_absent (fs (st_world s1))
               (cwd (st_world s1)) rs r s1) as (e & s2 & Hl & Hc).
  { by eapply enter_staging. }
  { exact Hrs. }
  { exact Hr. }
  { by eapply grown_clean. }
  { intros Hfile.
    apply (grown_is_file _ _ _ Hwf Hg Hclean), file_at_is_file in Hfile.
    congruence. }
  unfold staged_run, mbind, M_bind. rewrite Hl.
  destruct (leave_raise (A:=string) (cwd (st_world s)) e s2)
    as (e' & s3 & -> & Hc').
  exists e', s3. split; [done|].
  rewrite Hc', Hc, Htr. calls_arith.
Qed.

Lemma link_input_files_app a b s :
  link_input_files (a ++ b) s
  = (link_input_files a ≫= λ _, link_input_files b) s.
Proof.
  revert s. induction a as [|r a IH]; intros s; [done|].
  rewrite <- app_comm_cons. unfold mbind, M_bind.
  rewrite !link_input_files_cons.
  destruct (isfile _ _); [|done]. unfold mbind, M_bind.
  destruct (symlink _ _ s) as [[[]|] s1]; [|done]. apply IH.
Qed.

(** The run of [execute] up to the first mandatory file that is
    absent: the files before it are linked in the task directory, the
    [FatalError] that names the resolved location is raised, and the
    process goes back to where it came from. *)
Lemma execute_first_missing ip s rc rs os s0 s1 pre r post :
  wf_fs (fs (st_world s)) →
  prepare ip s = (Ok (rc, rs, os), s0) →
  enter (Path (ip_task_name ip)) s = (Ok tt, s1) →
  rs = pre ++ r :: post →
  Forall (λ x, file_at (fs (st_world s)) x = true) pre →
  file_at (fs (st_world s)) r = false →
  clean (fs (st_world s)) r →
  outside (cwd (st_world s1)) r →
  NoDup (name <$> pre) →
  Forall (λ x, fs (st_world s1) !! (cwd (st_world s1) ++ [name x]) = None)
    pre →
  execute ip s =
    (Raise (missing_file r),
     {| st_world :=
          {| fs := with_links (cwd (st_world s1)) pre (fs (st_world s1));
             cwd := cwd (st_world s) |};
        st_trace :=
          st_trace s ++ [EvChdir (cwd (st_world s1))]
          ++ link_events (cwd (st_world s1)) pre
          ++ [EvChdir (cwd (st_world s))] |}).
Proof.
  intros Hwf Hp He -> Hpre Hr Hclean Hout Hnd Hfresh.
  rewrite (execute_staged _ _ _ _ _ _ _ Hp He).
  pose proof (prepare_state _ _ _ _ Hp) as ->.
  destruct (prepare_spec _ _ _ _ _ _ Hwf Hp) as (Hrs & _ & _).
  pose proof (enter_spec _ _ _ He) as (Hg0 & Hg & _ & Htr).
  pose proof (enter_staging _ _ _ He) as Hst.
  set (S := cwd (st_world s1)) in *. set (m1 := fs (st_world s1)) in *.
  apply Forall_app in Hrs as [Hvpre _].
  assert (clean m1 r) as Hclr by by eapply grown_clean.
  assert (Forall (is_file m1) pre) as Hfiles.
  { eapply Forall_impl; [exact Hpre|]. intros x Hx.
    by eapply entered_is_file. }
  pose proof (link_input_files_all m1 S pre s1 Hst Hvpre Hfiles Hnd Hfresh)
    as Hall.
  pose proof (link_input_files_staging _ _ _ _ _ Hst Hvpre Hall)
    as (Hst2 & Hsub2 & _).
  unfold staged_run. unfold mbind at 1. unfold M_bind at 1.
  rewrite link_input_files_app. unfold mbind at 1. unfold M_bind at 1.
  rewrite Hall, link_input_files_cons.
  match goal with |- context [isfile ?w (abs r)] =>
    destruct (isfile w (abs r)) eqn:Hcur end.
  { apply isfile_is_file in Hcur. destruct Hst2 as (_ & _ & Hso).
    apply (staged_is_file _ _ _ _ Hso Hclr) in Hcur as [Hcur|[E _]].
    - apply file_at_is_file in Hcur. unfold m1 in Hcur.
      rewrite (entered_file_at _ _ _ _ Hwf He Hclean) in Hcur. congruence.
    - destruct Hout. rewrite E. by apply prefix_app_r. }
  rewrite leave_back.
  - simpl. rewrite Htr. by rewrite <- !app_assoc.
  - apply stat_origin; [done..|]. simpl in *.
    etrans; [by apply grown_sub|]. exact Hsub2.
Qed.

(** C1, as the code has it.  In a well-formed file system, when a
    mandatory file resolves to a location that passes through no
    symbolic link and is not a regular file, [execute] raises and
    [run_task] is not called.  The exception is the [FatalError] that
    names that location when the steps before its check succeed: the
    preparation, entering the task directory, and the links of the
    files that come before it (all there, with distinct names that are
    free in the task directory), and when the location does not lie in
    the task directory itself. *)
Theorem execute_missing_mandatory ip s f r :
  wf_fs (fs (st_world s)) → f ∈ input_files →
  resolve (truediv (Path (ip_task_path ip)) (Path f)) (st_world s) = Ok r →
  clean (fs (st_world s)) r →
  file_at (fs (st_world s)) r = false →
  (∃ e s', execute ip s = (Raise e, s') ∧
           run_task_calls (st_trace s') = run_task_calls (st_trace s)) ∧
  (∀ rc rs os s0 s1 pre post,
     prepare ip s = (Ok (rc, rs, os), s0) →
     enter (Path (ip_task_name ip)) s = (Ok tt, s1) →
     rs = pre ++ r :: post →
     Forall (λ x, file_at (fs (st_world s)) x = true) pre →
     outside (cwd (st_world s1)) r →
     NoDup (name <$> pre) →
     Forall (λ x, fs (st_world s1) !! (cwd (st_world s1) ++ [name x])
                  = None) pre →
     (execute ip s).1 = Raise (missing_file r)).
Proof.
  intros Hwf Hf Hres Hclean Habs. split; [by eapply execute_absent|].
  intros rc rs os s0 s1 pre post Hp He Hrs Hpre Hout Hnd Hfresh.
  by erewrite execute_first_missing.
Qed.

(** C6, as the code has it: the check of the mandatory files is made
    inside the task directory.  When the first absent file is reached,
    the task directory has been made and entered, and the files before
    it have been linked there; then the [FatalError] whose message ends
    in the resolved location of the absent file is raised, [run_task]
    has not been called, and the process is back in the directory it
    came from.  The absent file's location passes through no symbolic
    link and does not lie in the task directory. *)
Theorem execute_missing_file_after_entering ip s rc rs os s0 s1 pre r post :
  wf_fs (fs (st_world s)) →
  prepare ip s = (Ok (rc, rs, os), s0) →
  enter (Path (ip_task_name ip)) s = (Ok tt, s1) →
  rs = pre ++ r :: post →
  Forall (λ x, file_at (fs (st_world s)) x = true) pre →
  file_at (fs (st_world s)) r = false →
  clean (fs (st_world s)) r →
  outside (cwd (st_world s1)) r →
  NoDup (name <$> pre) →
  Forall (λ x, fs (st_world s1) !! (cwd (st_world s1) ++ [name x]) = None)
    pre →
  let out := execute ip s in
  out.1 = Raise (FatalError ("cannot file file " +:+ str_of_path r)) ∧
  st_trace out.2 =
    st_trace s ++ [EvChdir (cwd (st_world s1))]
    ++ link_events (cwd (st_world s1)) pre
    ++ [EvChdir (cwd (st_world s))] ∧
  node_at (fs (st_world out.2)) (cwd (st_world s1)) = Some Dir ∧
  cwd (st_world out.2) = cwd (st_world s) ∧
  run_task_calls (st_trace out.2) = run_task_calls (st_trace s).
Proof.
  intros Hwf Hp He Hrs Hpre Hr Hclean Hout Hnd Hfresh out. subst out.
  erewrite execute_first_missing by done. simpl.
  split; [done|]. split; [done|]. split; [|split; [done|]].
  - pose proof (enter_spec _ _ _ He) as (_ & _ & Hd & _).
    destruct (cwd (st_world s1)) as [|c S] eqn:E; [done|]. simpl in *.
    rewrite with_links_lookup_ne; [done|].
    intros x _ Hx. apply (f_equal length) in Hx.
    rewrite length_app in Hx. simpl in Hx. lia.
  - rewrite run_task_calls_app, run_task_calls_cons, run_task_calls_app,
      run_task_calls_links.
    unfold run_task_calls. simpl. lia.
Qed.

Lemma symlink_calls p r s res s' :
  symlink p r s = (res, s') →
  run_task_calls (st_trace s') = run_task_calls (st_trace s).
Proof.
  unfold symlink, writes. intros H.
  repeat break_match_hyp; simplify_eq; simpl;
    calls_arith.
Qed.

Lemma link_input_files_calls files s res s' :
  link_input_files files s = (res, s') →
  run_task_calls (st_trace s') = run_task_calls (st_trace s).
Proof.
  revert s. induction files as [|r files IH]; intros s.
  - simpl. unfold_m. by intros [= _ <-].
  - rewrite link_input_files_cons. destruct (isfile _ _); [|by intros [= _ <-]].
    unfold mbind, M_bind.
    destruct (symlink _ _ s) as [[[]|] s1] eqn:Hs;
      apply symlink_calls in Hs; [|by intros [= _ <-]].
    intros H%IH. congruence.
Qed.

(** C2, as the code has it: the keys of [optional_artifact] are the
    names looked up under [task_path]; the values play no part.  In a
    well-formed file system, when the preparation succeeds and the task
    directory is entered, the mandatory files are there, the files that
    are there have distinct names that are free in the task directory,
    and every optional file that is not there passes through no symbolic
    link and is not looked up in the task directory itself, [run_task]
    is called in the world where every mandatory file and every optional
    file that is there has a link named after it, and no link was made
    for an optional file that is not there. *)
Theorem optional_files_linked ip s rc rs os s0 s1 :
  wf_fs (fs (st_world s)) →
  prepare ip s = (Ok (rc, rs, os), s0) →
  enter (Path (ip_task_name ip)) s = (Ok tt, s1) →
  let S := cwd (st_world s1) in
  let present := λ r, file_at (fs (st_world s)) r = true in
  let linked := rs ++ filter present os in
  Forall present rs →
  Forall (λ r, ¬ present r → clean (fs (st_world s)) r ∧ outside S r) os →
  NoDup (name <$> linked) →
  Forall (λ x, fs (st_world s1) !! (S ++ [name x]) = None) linked →
  let staged :=
    {| st_world :=
         {| fs := with_links S linked (fs (st_world s1)); cwd := S |};
       st_trace := st_trace s1 ++ link_events S linked |} in
  (∃ oa, ip_optional_artifact ip = Some oa ∧
         Forall2 (λ (kv : string * PurePath) r,
                    resolve (truediv (Path (ip_task_path ip)) (Path kv.1))
                      (st_world s) = Ok r) oa os) ∧
  execute ip s =
    match leave (cwd (st_world s))
            (call_run_task (ip_backward_dir_name ip) (ip_log_name ip)
               (ip_backward_list ip) rc (ip_optional_input ip) staged) with
    | (Ok d, s3) => (Ok (truediv (Path (ip_task_name ip)) (Path d)), s3)
    | (Raise e, s3) => (Raise e, s3)
    end ∧
  (∀ r, r ∈ linked →
        fs (st_world staged) !! (S ++ [name r]) = Some (Link r)) ∧
  (∀ r q, r ∈ os → ¬ present r → EvSymlink q r ∉ link_events S linked).
Proof.
  intros Hwf Hp He S present linked Hrs Hout Hnd Hfresh staged.
  split; [by eapply prepare_keys|].
  pose proof (prepare_state _ _ _ _ Hp) as ->.
  destruct (prepare_spec _ _ _ _ _ _ Hwf Hp) as (Hvrs & Hvos & _).
  pose proof (enter_spec _ _ _ He) as (_ & Hg & _ & _).
  pose proof (enter_staging _ _ _ He) as Hst.
  set (m1 := fs (st_world s1)) in *.
  assert (Forall (λ r, file_at m1 r = file_at (fs (st_world s)) r) os)
    as Hsame.
  { eapply Forall_impl; [exact Hout|]. intros x Hx. unfold m1.
    destruct (file_at (fs (st_world s)) x) eqn:E.
    - apply file_at_is_file. by eapply entered_is_file.
    - rewrite (entered_file_at _ _ _ _ Hwf He); [done|].
      apply Hx. unfold present. congruence. }
  assert (filter present os = filter (λ r, file_at m1 r = true) os) as Hfil.
  { apply filter_ext_in. eapply Forall_impl; [exact Hsame|].
    intros x Hx. unfold present. by rewrite Hx. }
  assert (Forall (λ r, file_at m1 r = false → clean m1 r ∧ outside S r) os)
    as Hout1.
  { apply Forall_forall. intros x Hx Hab.
    eapply Forall_forall in Hsame; [|exact Hx].
    eapply Forall_forall in Hout; [|exact Hx].
    destruct Hout as [Hc Ho]; [unfold present; congruence|].
    split; [by eapply grown_clean|exact Ho]. }
  assert (Forall (is_file m1) rs) as Hfiles.
  { eapply Forall_impl; [exact Hrs|]. intros x Hx.
    by eapply entered_is_file. }
  unfold linked in Hnd, Hfresh. rewrite fmap_app in Hnd.
  apply NoDup_app in Hnd as (Hnd1 & Hdisj & Hnd2).
  apply Forall_app in Hfresh as [Hfr1 Hfr2].
  pose proof (link_input_files_all m1 S rs s1 Hst Hvrs Hfiles Hnd1 Hfr1)
    as Hall.
  pose proof (link_input_files_staging _ _ _ _ _ Hst Hvrs Hall)
    as (Hst2 & _ & _).
  split; [|split].
  - rewrite (execute_staged _ _ _ _ _ _ _ Hp He).
    unfold staged_run. unfold mbind at 1. unfold M_bind at 1.
    rewrite Hall. unfold mbind at 1. unfold M_bind at 1.
    rewrite (link_opt_input_files_all m1 S os _ Hst2 Hvos Hout1).
    + cbn [st_world st_trace fs]. unfold staged, linked, link_events.
      by rewrite with_links_app, <- Hfil, <- app_assoc,
        <- (fmap_app _ rs).
    + by rewrite <- Hfil.
    + rewrite <- Hfil. cbn [st_world fs]. apply Forall_forall. intros x Hx.
      rewrite with_links_lookup_ne; [by eapply Forall_forall in Hfr2|].
      intros y Hy. apply link_key_ne. intros E.
      apply (Hdisj (name y)); apply list_elem_of_fmap; eauto.
  - intros r Hr. simpl. apply with_links_lookup; [|exact Hr].
    unfold linked. rewrite fmap_app. apply NoDup_app.
    split; [exact Hnd1|]. split; [exact Hdisj|exact Hnd2].
  - intros r q Hr Hpres Hin.
    apply list_elem_of_fmap in Hin as (x & [= _ ->] & Hx).
    apply elem_of_app in Hx as [Hx|Hx].
    + eapply Forall_forall in Hrs; [|exact Hx]. exact (Hpres Hrs).
    + apply list_elem_of_filter in Hx as [Hx _]. exact (Hpres Hx).
Qed.

(** C9, as the code has it: staging cannot be done twice.  In a
    well-formed file system, when the preparation succeeds, the task
    directory is entered, and a file that is there (mandatory or
    optional) already has an entry of its name in the task directory,
    [execute] raises and [run_task] is not called; when that file is the
    first mandatory one, the exception is the [FileExistsError] of the
    link. *)
Theorem restaging_fails ip s rc rs os s0 s1 r :
  wf_fs (fs (st_world s)) →
  prepare ip s = (Ok (rc, rs, os), s0) →
  enter (Path (ip_task_name ip)) s = (Ok tt, s1) →
  r ∈ rs ++ os →
  file_at (fs (st_world s)) r = true →
  is_Some (fs (st_world s) !! (cwd (st_world s1) ++ [name r])) →
  (∃ e s', execute ip s = (Raise e, s') ∧
           run_task_calls (st_trace s') = run_task_calls (st_trace s)) ∧
  (∀ post, rs = r :: post →
     (execute ip s).1
     = Raise (FileExistsError (cwd (st_world s1) ++ [name r]))).
Proof.
  intros Hwf Hp He Hin Hfile Htaken.
  pose proof (prepare_state _ _ _ _ Hp) as ->.
  destruct (prepare_spec _ _ _ _ _ _ Hwf Hp) as (Hvrs & Hvos & _).
  pose proof (enter_spec _ _ _ He) as (Hg0 & Hg & _ & Htr).
  pose proof (enter_staging _ _ _ He) as Hst.
  set (S := cwd (st_world s1)) in *. set (m1 := fs (st_world s1)) in *.
  assert (is_file m1 r) as Hf1 by by eapply entered_is_file.
  assert (is_Some (m1 !! (S ++ [name r]))) as Ht1.
  { destruct Htaken as [x Hx]. exists x.
    eapply lookup_weaken; [done|]. by apply grown_sub. }
  rewrite (execute_staged _ _ _ _ _ _ _ Hp He). split.
  - assert (∃ e s2, staged_run ip rc rs os s1 = (Raise e, s2) ∧
              run_task_calls (st_trace s2) = run_task_calls (st_trace s1))
      as (e & s2 & -> & Hc).
    { unfold staged_run. unfold mbind at 1. unfold M_bind at 1.
      apply elem_of_app in Hin as [Hin|Hin].
      - destruct (link_input_files_taken m1 S rs r s1)
          as (e & s2 & -> & Hc); by eauto.
      - destruct (link_input_files rs s1) as [[[]|e] s2] eqn:Hl.
        2:{ apply link_input_files_calls in Hl. by eauto. }
        pose proof (link_input_files_staging _ _ _ _ _ Hst Hvrs Hl)
          as (Hst2 & Hsub & Hc2).
        unfold mbind at 1. unfold M_bind at 1.
        destruct (link_opt_input_files_taken m1 S os r s2)
          as (e & s3 & -> & Hc); try done.
        + destruct Ht1 as [x Hx]. exists x. by eapply lookup_weaken.
        + exists e, s3. split; [done|]. congruence. }
    destruct (leave_raise (A:=string) (cwd (st_world s)) e s2)
      as (e' & s3 & -> & Hc').
    exists e', s3. split; [done|].
    rewrite Hc', Hc, Htr. calls_arith.
  - intros post ->. unfold staged_run. unfold mbind at 1. unfold M_bind at 1.
    rewrite link_input_files_cons.
    rewrite (proj2 (isfile_is_file _ _) Hf1).
    apply Forall_cons in Hvrs as [Hvr _].
    rewrite (link_present m1 S); [|done..|by apply isfile_is_file].
    destruct Ht1 as [x Hx]. unfold m1, S in *. rewrite Hx.
    rewrite leave_back; [done|].
    apply stat_origin; [done..|]. by apply grown_sub.
Qed.

(** C5, as the code has it.  When [execute] returns, [run_task] was
    called once the task directory was entered and both loops had made
    their links, in the world they left; with [d] the name that this
    call returned, the output is [Path(task_name) / d], over the file
    system that the call left.  The name asked for, [backward_dir_name],
    plays no part in it.  When [d] is a relative name the output is
    [task_name] followed by [d]; when [d] starts with a slash the output
    is [d] alone, and [task_name] is dropped. *)
Theorem execute_returns_run_task_dir ip s out s' :
  execute ip s = (Ok out, s') →
  ∃ rc rs os s1 s2 s3 d w2,
    prepare ip s = (Ok (rc, rs, os), s) ∧
    enter (Path (ip_task_name ip)) s = (Ok tt, s1) ∧
    link_input_files rs s1 = (Ok tt, s2) ∧
    link_opt_input_files os s2 = (Ok tt, s3) ∧
    run_task (ip_backward_dir_name ip) (ip_log_name ip)
      (ip_backward_list ip) rc (ip_optional_input ip) (st_world s3)
    = (Ok d, w2) ∧
    fs (st_world s') = fs w2 ∧
    out = truediv (Path (ip_task_name ip)) (Path d) ∧
    (starts_with_slash d = false →
     anchored out = anchored (Path (ip_task_name ip)) ∧
     parts out = parts (Path (ip_task_name ip)) ++ parts (Path d)) ∧
    (starts_with_slash d = true → out = Path d).
Proof.
  rewrite execute_prepare.
  destruct (prepare ip s) as [[[[rc rs] os]|e] s0] eqn:Hp;
    pose proof (prepare_state _ _ _ _ Hp) as ->; [|done].
  unfold mbind, M_bind.
  destruct (enter (Path (ip_task_name ip)) s) as [[[]|e] s1] eqn:He.
  2:{ eapply (set_directory_not_entered _ (staged_run ip rc rs os))
        in He as (e' & sx & -> & _). done. }
  rewrite (set_directory_enter _ _ _ _ He).
  destruct (staged_run ip rc rs os s1) as [res sr] eqn:Hrun.
  destruct (leave _ _) as [[d|e] sl] eqn:Hl; [|done].
  intros [= <- <-].
  pose proof (leave_fs _ _ _ _ _ Hl) as Hfs.
  apply leave_calls in Hl as [_ Hok]. specialize (Hok _ eq_refl) as ->.
  unfold staged_run in Hrun. unfold mbind at 1 in Hrun.
  unfold M_bind at 1 in Hrun.
  destruct (link_input_files rs s1) as [[[]|e] s2] eqn:H2; [|done].
  unfold mbind at 1 in Hrun. unfold M_bind at 1 in Hrun.
  destruct (link_opt_input_files os s2) as [[[]|e] s3] eqn:H3; [|done].
  unfold call_run_task in Hrun.
  destruct (run_task _ _ _ _ _ _) as [r0 w2] eqn:Hcall.
  injection Hrun as -> <-.
  exists rc, rs, os, s1, s2, s3, d, w2.
  split; [done|]. split; [done|]. split; [done|]. split; [done|].
  split; [exact Hcall|]. split; [exact Hfs|]. split; [done|].
  unfold truediv, Path. cbn [anchored parts]. split; intros ->; done.
Qed.

End Execute.

(** ** The properties at concrete inputs *)

Section Instances.
Import FlatSchema Pathlib39 Examples.

Ltac by_computing := vm_compute; reflexivity.
Ltac by_deciding := apply (bool_decide_unpack _); vm_compute; reflexivity.

#[local] Abbreviation POSCAR := ["w"; "in"; "POSCAR"].
#[local] Abbreviation INCAR := ["w"; "in"; "INCAR"].
#[local] Abbreviation EXTRA := ["w"; "in"; "extra.json"].
#[local] Abbreviation KPOINTS := ["w"; "in"; "KPOINTS"].
#[local] Abbreviation TASKDIR := ["w"; "task.000"].

(** C1, witness: [INCAR] is declared and absent. *)
Lemma execute_missing_mandatory_witness :
  let ip := input run_null (Some []) in
  let s := start world_in in
  wf_fs (fs (st_world s)) ∧
  "INCAR" ∈ @input_files dargs vasp_task ∧
  @resolve pathlib (truediv (Path (ip_task_path ip)) (Path "INCAR"))
    (st_world s) = Ok INCAR ∧
  clean (fs (st_world s)) INCAR ∧
  file_at (fs (st_world s)) INCAR = false ∧
  (∃ e s', @execute dargs pathlib vasp_task ip s = (Raise e, s') ∧
           run_task_calls (st_trace s') = run_task_calls (st_trace s)) ∧
  (∀ rc rs os s0 s1 pre post,
     @prepare dargs pathlib vasp_task ip s = (Ok (rc, rs, os), s0) →
     enter (Path (ip_task_name ip)) s = (Ok tt, s1) →
     rs = pre ++ INCAR :: post →
     Forall (λ x, file_at (fs (st_world s)) x = true) pre →
     outside (cwd (st_world s1)) INCAR →
     NoDup (name <$> pre) →
     Forall (λ x, fs (st_world s1) !! (cwd (st_world s1) ++ [name x])
                  = None) pre →
     (@execute dargs pathlib vasp_task ip s).1 = Raise (missing_file INCAR)).
Proof.
  intros ip s.
  assert (H1 : wf_fs (fs (st_world s))) by by_deciding.
  assert (H2 : "INCAR" ∈ @input_files dargs vasp_task) by by_deciding.
  assert (H3 : @resolve pathlib
                 (truediv (Path (ip_task_path ip)) (Path "INCAR"))
                 (st_world s) = Ok INCAR) by by_computing.
  assert (H4 : clean (fs (st_world s)) INCAR) by by_deciding.
  assert (H5 : file_at (fs (st_world s)) INCAR = false) by by_computing.
  repeat (split; [assumption|]).
  exact (@execute_missing_mandatory dargs pathlib vasp_task ip s "INCAR"
           INCAR H1 H2 H3 H4 H5).
Defined.

(** C1, counterexample: [INCAR] is declared and absent, and a regular
    file stands where the task directory should be.  [execute] raises
    the [FileExistsError] of [mkdir], not [FatalError]. *)
Lemma execute_missing_not_fatal :
  let ip := input run_null (Some []) in
  let s := start world_blocked in
  "INCAR" ∈ @input_files dargs vasp_task ∧
  @resolve pathlib (truediv (Path (ip_task_path ip)) (Path "INCAR"))
    (st_world s) = Ok INCAR ∧
  file_at (fs (st_world s)) INCAR = false ∧
  (@execute dargs pathlib vasp_task ip s).1
  = Raise (FileExistsError TASKDIR).
Proof.
split; [by_deciding|]. split; [by_computing|]. split; by_computing.
Qed.

(** C6, witness: [POSCAR] is there and gets its link, [INCAR] is not. *)
Lemma execute_missing_file_after_entering_witness :
  let ip := input run_null (Some []) in
  let s := start world_in in
  let s1 := (enter (Path (ip_task_name ip)) s).2 in
  let rc := PDict [("nproc", PInt 1)] in
  wf_fs (fs (st_world s)) ∧
  @prepare dargs pathlib vasp_task ip s = (Ok (rc, [POSCAR; INCAR], []), s) ∧
  enter (Path (ip_task_name ip)) s = (Ok tt, s1) ∧
  [POSCAR; INCAR] = [POSCAR] ++ INCAR :: [] ∧
  Forall (λ x, file_at (fs (st_world s)) x = true) [POSCAR] ∧
  file_at (fs (st_world s)) INCAR = false ∧
  clean (fs (st_world s)) INCAR ∧
  outside (cwd (st_world s1)) INCAR ∧
  NoDup (name <$> [POSCAR]) ∧
  Forall (λ x, fs (st_world s1) !! (cwd (st_world s1) ++ [name x]) = None)
    [POSCAR] ∧
  let out := @execute dargs pathlib vasp_task ip s in
  out.1 = Raise (FatalError ("cannot file file " +:+ str_of_path INCAR)) ∧
  st_trace out.2 =
    st_trace s ++ [EvChdir (cwd (st_world s1))]
    ++ link_events (cwd (st_world s1)) [POSCAR]
    ++ [EvChdir (cwd (st_world s))] ∧
  node_at (fs (st_world out.2)) (cwd (st_world s1)) = Some Dir ∧
  cwd (st_world out.2) = cwd (st_world s) ∧
  run_task_calls (st_trace out.2) = run_task_calls (st_trace s).
Proof.
intros ip s s1 rc.
assert (H1 : wf_fs (fs (st_world s))) by by_deciding.
assert (H2 : @prepare dargs pathlib vasp_task ip s
             = (Ok (rc, [POSCAR; INCAR], []), s)) by by_computing.
assert (H3 : enter (Path (ip_task_name ip)) s = (Ok tt, s1)) by by_computing.
assert (H4 : [POSCAR; INCAR] = [POSCAR] ++ INCAR :: []) by reflexivity.
assert (H5 : Forall (λ x, file_at (fs (st_world s)) x = true) [POSCAR])
  by by_deciding.
assert (H6 : file_at (fs (st_world s)) INCAR = false) by by_computing.
assert (H6' : clean (fs (st_world s)) INCAR) by by_deciding.
assert (H7 : outside (cwd (st_world s1)) INCAR)
  by (unfold outside; by_deciding).
assert (H8 : NoDup (name <$> [POSCAR])) by by_deciding.
assert (H9 : Forall (λ x, fs (st_world s1) !! (cwd (st_world s1) ++ [name x])
                          = None) [POSCAR]) by by_deciding.
repeat (split; [assumption|]).
exact (@execute_missing_file_after_entering dargs pathlib vasp_task ip s rc
         [POSCAR; INCAR] [] s s1 [POSCAR] INCAR [] H1 H2 H3 H4 H5 H6 H6' H7
         H8 H9).
Defined.

(** C6, counterexample: [INCAR] is declared and absent.  Before the
    [FatalError] is raised the task directory has been made, the process
    has changed into it, and [POSCAR] has been linked there. *)
Lemma execute_enters_before_failing :
  let out := @execute dargs pathlib vasp_task (input run_null (Some []))
               (start world_in) in
  fs world_in !! TASKDIR = None ∧
  out.1 = Raise (FatalError "cannot file file /w/in/INCAR") ∧
  st_trace out.2 =
    [EvChdir TASKDIR; EvSymlink (TASKDIR ++ ["POSCAR"]) POSCAR;
     EvChdir ["w"]] ∧
  fs (st_world out.2) !! TASKDIR = Some Dir.
Proof.
split; [by_computing|]. split; [by_computing|]. split; by_computing.
Qed.

(** C2, witness: the scenario with the key that names the file, and a
    second key whose file is not there. *)
Lemma optional_files_linked_witness :
  let ip := input run_null (Some extra_and_missing) in
  let s := start world_in in
  let s1 := (enter (Path (ip_task_name ip)) s).2 in
  let rc := PDict [("nproc", PInt 1)] in
  let S := cwd (st_world s1) in
  let present := λ r, file_at (fs (st_world s)) r = true in
  let linked := [POSCAR] ++ filter present [EXTRA; KPOINTS] in
  let staged :=
    {| st_world :=
         {| fs := with_links S linked (fs (st_world s1)); cwd := S |};
       st_trace := st_trace s1 ++ link_events S linked |} in
  wf_fs (fs (st_world s)) ∧
  @prepare dargs pathlib poscar_task ip s
  = (Ok (rc, [POSCAR], [EXTRA; KPOINTS]), s) ∧
  enter (Path (ip_task_name ip)) s = (Ok tt, s1) ∧
  Forall present [POSCAR] ∧
  Forall (λ r, ¬ present r → clean (fs (st_world s)) r ∧ outside S r)
    [EXTRA; KPOINTS] ∧
  NoDup (name <$> linked) ∧
  Forall (λ x, fs (st_world s1) !! (S ++ [name x]) = None) linked ∧
  (∃ oa, ip_optional_artifact ip = Some oa ∧
         Forall2 (λ (kv : string * PurePath) r,
                    @resolve pathlib
                      (truediv (Path (ip_task_path ip)) (Path kv.1))
                      (st_world s) = Ok r) oa [EXTRA; KPOINTS]) ∧
  @execute dargs pathlib poscar_task ip s =
    match leave (cwd (st_world s))
            (@call_run_task dargs poscar_task (ip_backward_dir_name ip)
               (ip_log_name ip) (ip_backward_list ip) rc
               (ip_optional_input ip) staged) with
    | (Ok d, s3) => (Ok (truediv (Path (ip_task_name ip)) (Path d)), s3)
    | (Raise e, s3) => (Raise e, s3)
    end ∧
  (∀ r, r ∈ linked →
        fs (st_world staged) !! (S ++ [name r]) = Some (Link r)) ∧
  (∀ r q, r ∈ [EXTRA; KPOINTS] → ¬ present r →
          EvSymlink q r ∉ link_events S linked).
Proof.
intros ip s s1 rc S present linked staged.
assert (H1 : wf_fs (fs (st_world s))) by by_deciding.
assert (H2 : @prepare dargs pathlib poscar_task ip s
             = (Ok (rc, [POSCAR], [EXTRA; KPOINTS]), s)) by by_computing.
assert (H3 : enter (Path (ip_task_name ip)) s = (Ok tt, s1)) by by_computing.
assert (H4 : Forall present [POSCAR]) by by_deciding.
assert (H5 : Forall (λ r, ¬ present r →
                          clean (fs (st_world s)) r ∧ outside S r)
               [EXTRA; KPOINTS]) by (unfold outside; by_deciding).
assert (H6 : NoDup (name <$> linked)) by by_deciding.
assert (H7 : Forall (λ x, fs (st_world s1) !! (S ++ [name x]) = None) linked)
  by by_deciding.
repeat (split; [assumption|]).
exact (@optional_files_linked dargs pathlib poscar_task ip s rc [POSCAR]
         [EXTRA; KPOINTS] s s1 H1 H2 H3 H4 H5 H6 H7).
Defined.

(** C2, counterexample: the scenario as the claim has it, with the key
    ["aux"] and the location of [extra.json] as its value.  The name
    looked up is [in/aux], which is not there: [run_task] is called with
    [POSCAR] linked and no link named [extra.json]. *)
Lemma scenario_aux_not_linked :
  let out := @execute dargs pathlib poscar_task (input run_null (Some aux_artifact))
               (start world_in) in
  fs world_in !! EXTRA = Some File ∧
  out.1 = Ok {| anchored := false; parts := ["task.000"; "backward_dir"] |} ∧
  run_task_calls (st_trace out.2) = 1%nat ∧
  fs (st_world out.2) !! (TASKDIR ++ ["POSCAR"]) = Some (Link POSCAR) ∧
  fs (st_world out.2) !! (TASKDIR ++ ["extra.json"]) = None.
Proof.
split; [by_computing|]. split; [by_computing|]. split; [by_computing|].
split; by_computing.
Qed.

(** C9, witness: the link of [POSCAR] is left from an earlier run. *)
Lemma restaging_fails_witness :
  let ip := input run_null (Some []) in
  let s := start world_stale in
  let s1 := (enter (Path (ip_task_name ip)) s).2 in
  let rc := PDict [("nproc", PInt 1)] in
  wf_fs (fs (st_world s)) ∧
  @prepare dargs pathlib poscar_task ip s = (Ok (rc, [POSCAR], []), s) ∧
  enter (Path (ip_task_name ip)) s = (Ok tt, s1) ∧
  POSCAR ∈ [POSCAR] ++ [] ∧
  file_at (fs (st_world s)) POSCAR = true ∧
  is_Some (fs (st_world s) !! (cwd (st_world s1) ++ [name POSCAR])) ∧
  (∃ e s', @execute dargs pathlib poscar_task ip s = (Raise e, s') ∧
           run_task_calls (st_trace s') = run_task_calls (st_trace s)) ∧
  (∀ post, [POSCAR] = POSCAR :: post →
     (@execute dargs pathlib poscar_task ip s).1
     = Raise (FileExistsError (cwd (st_world s1) ++ [name POSCAR]))).
Proof.
intros ip s s1 rc.
assert (H1 : wf_fs (fs (st_world s))) by by_deciding.
assert (H2 : @prepare dargs pathlib poscar_task ip s = (Ok (rc, [POSCAR], []), s))
  by by_computing.
assert (H3 : enter (Path (ip_task_name ip)) s = (Ok tt, s1)) by by_computing.
assert (H4 : POSCAR ∈ [POSCAR] ++ []) by by_deciding.
assert (H5 : file_at (fs (st_world s)) POSCAR = true) by by_computing.
assert (H6 : is_Some (fs (st_world s)
                      !! (cwd (st_world s1) ++ [name POSCAR])))
  by by_deciding.
repeat (split; [assumption|]).
exact (@restaging_fails dargs pathlib poscar_task ip s rc [POSCAR] [] s s1 POSCAR
         H1 H2 H3 H4 H5 H6).
Defined.

(** C9, counterexample: a run whose [run_task] fails with
    [TransientError], retried with the same input over the world that the
    first run left.  The second run does not stage again: it raises
    [FileExistsError] at the link of [POSCAR] and never calls
    [run_task]. *)
Lemma retry_after_transient_failure :
  let ip := input run_null (Some []) in
  let first := @execute dargs pathlib failing_task ip (start world_in) in
  let second := @execute dargs pathlib failing_task ip (start (st_world first.2)) in
  first.1 = Raise (TransientError "fp failed") ∧
  second.1 = Raise (FileExistsError (TASKDIR ++ ["POSCAR"])) ∧
  run_task_calls (st_trace second.2) = 0%nat.
Proof. split; [by_computing|]. split; by_computing. Qed.

(** C5, witness: [run_task] returns ["results"], not the name asked for. *)
Lemma execute_returns_run_task_dir_witness :
  let ip := input run_null (Some []) in
  let s := start world_in in
  let out := {| anchored := false; parts := ["task.000"; "results"] |} in
  let s' := (@execute dargs pathlib elsewhere_task ip s).2 in
  @execute dargs pathlib elsewhere_task ip s = (Ok out, s') ∧
  ∃ rc rs os s1 s2 s3 d w2,
    @prepare dargs pathlib elsewhere_task ip s = (Ok (rc, rs, os), s) ∧
    enter (Path (ip_task_name ip)) s = (Ok tt, s1) ∧
    link_input_files rs s1 = (Ok tt, s2) ∧
    link_opt_input_files os s2 = (Ok tt, s3) ∧
    @run_task dargs elsewhere_task (ip_backward_dir_name ip) (ip_log_name ip)
      (ip_backward_list ip) rc (ip_optional_input ip) (st_world s3)
    = (Ok d, w2) ∧
    fs (st_world s') = fs w2 ∧
    out = truediv (Path (ip_task_name ip)) (Path d) ∧
    (starts_with_slash d = false →
     anchored out = anchored (Path (ip_task_name ip)) ∧
     parts out = parts (Path (ip_task_name ip)) ++ parts (Path d)) ∧
    (starts_with_slash d = true → out = Path d).
Proof.
intros ip s out s'.
assert (H1 : @execute dargs pathlib elsewhere_task ip s = (Ok out, s'))
  by by_computing.
split; [exact H1|].
exact (@execute_returns_run_task_dir dargs pathlib elsewhere_task ip s out s'
         H1).
Defined.

(** C5, counterexample: [run_task] returns the absolute name
    ["/w/results"].  The output is that absolute path: it is not
    [task_name] joined with anything, and it is not relative. *)
Lemma execute_returns_absolute_dir :
  let ip := input run_null (Some []) in
  let out := @execute dargs pathlib absolute_task ip (start world_in) in
  ip_task_name ip = "task.000" ∧
  out.1 = Ok {| anchored := true; parts := ["w"; "results"] |} ∧
  run_task_calls (st_trace out.2) = 1%nat ∧
  fs (st_world out.2) !! ["w"; "results"; "log"] = Some File.
Proof.
split; [reflexivity|]. split; [by_computing|]. split; by_computing.
Qed.

(** C7, witness: no [optional_artifact] is given. *)
Lemma execute_absent_optional_artifact_witness :
  let ip := input run_null None in
  let s := start world_in in
  ip_optional_artifact ip = None ∧
  (∃ e, @execute dargs pathlib poscar_task ip s = (Raise e, s)) ∧
  (∀ run rc rs,
     ip_config ip !! "run" = Some run →
     @normalize_config dargs poscar_task
       (Some (match run with PNone => PDict [] | v => v end)) (Some false)
     = Ok rc →
     @resolve_under pathlib (Path (ip_task_path ip))
       (@input_files dargs poscar_task) s = (Ok rs, s) →
     @execute dargs pathlib poscar_task ip s = (Raise no_items, s)).
Proof.
intros ip s. split; [reflexivity|].
exact (@execute_absent_optional_artifact dargs pathlib poscar_task ip s eq_refl).
Defined.


(** C10, witness: the same key with two different locations. *)
Lemma optional_artifact_values_unread_witness :
  let ip := input run_null None in
  let s := start world_in in
  extra_artifact.*1 = extra_artifact'.*1 ∧
  @execute dargs pathlib poscar_task
    (with_optional_artifact ip (Some extra_artifact)) s
  = @execute dargs pathlib poscar_task
      (with_optional_artifact ip (Some extra_artifact')) s.
Proof.
intros ip s. split; [reflexivity|].
exact (@optional_artifact_values_unread dargs pathlib poscar_task ip
         extra_artifact extra_artifact' s eq_refl).
Defined.

End Instances.


(** * Further properties of the code *)

(** ** set_directory over what is already there *)

Section Existing.
Implicit Types (m : gmap (list string) node) (s : state) (p : PurePath).

Lemma walk_follow_lstat f m acc rest q n :
  walk f true m acc rest = Found q n →
  ∃ q' n', walk f false m acc rest = Found q' n'.
Proof.
revert acc rest.
induction f as [|f IHf]; intros acc rest; revert acc;
  (induction rest as [|c rest IH]; intros acc;
   [rewrite !walk_nil; destruct (node_at m acc); [by eauto|done]|]);
  rewrite !walk_cons; intros H.
all: destruct (node_at m acc) as [[]|]; try done;
  case_decide; [by apply IH|];
  destruct (m !! (acc ++ [c])) as [[]|]; eauto.
all: try by destruct rest.
all: destruct rest as [|c' rest]; simpl in *; eauto.
Qed.

Lemma PurePath_eta p :
  {| anchored := anchored p; parts := rev (rev (parts p)) |} = p.
Proof. destruct p. simpl. by rewrite rev_involutive. Qed.

Lemma mkdir_parents_head b l w :
  mkdir_parents b l w =
    match os_mkdir {| anchored := b; parts := rev l |} w with
    | Ok w' => (Ok tt, w')
    | Raise (FileNotFoundError q) =>
        match l with
        | [] => (Raise (FileNotFoundError q), w)
        | _ :: rparent =>
            match mkdir_parents b rparent w with
            | (Ok _, w1) => mkdir_leaf {| anchored := b; parts := rev l |} w1
            | (Raise e, w1) => (Raise e, w1)
            end
        end
    | Raise e =>
        if is_dir w {| anchored := b; parts := rev l |}
        then (Ok tt, w) else (Raise e, w)
    end.
Proof.
destruct l; simpl; destruct (os_mkdir _ w) as [|[]]; try done.
Qed.

(** [mkdir(parents=True, exist_ok=True)] on a directory that is there
    changes nothing. *)
Lemma Path_mkdir_existing p w q :
  stat w p = Found q Dir → Path_mkdir p w = (Ok tt, w).
Proof.
intros Hst. unfold Path_mkdir. rewrite mkdir_parents_head, PurePath_eta.
unfold os_mkdir, is_dir. rewrite Hst.
destruct (walk_follow_lstat _ _ _ _ _ _ Hst) as (q' & n' & Hl).
unfold lstat. by rewrite Hl.
Qed.


Lemma state_same s :
  {| st_world := st_world s; st_trace := st_trace s |} = s.
Proof. by destruct s. Qed.

(** X1: when the target of [set_directory] is already a directory
    (reached directly or through links), nothing is created: the block
    runs in that directory over the file system as it was, and the
    [finally] clause follows. *)
Theorem set_directory_existing {A} p (body : M A) s q :
  os_getcwd (st_world s) = Ok (cwd (st_world s)) →
  stat (st_world s) p = Found q Dir →
  set_directory p body s =
    leave (cwd (st_world s))
      (body {| st_world := {| fs := fs (st_world s); cwd := q |};
               st_trace := st_trace s ++ [EvChdir q] |}).
Proof.
intros Hg Hst. apply set_directory_enter.
unfold enter, tries, mkdir_p, chdir, writes, mbind, M_bind.
rewrite Hg, (Path_mkdir_existing _ _ _ Hst), state_same.
unfold os_chdir. by rewrite Hst.
Qed.


(** X3: entering the target only adds directories.  Every entry that was
    there is still there, unchanged; an entry that was not there is
    either still absent or a directory; and the process ends up in a
    directory, with its change of directory recorded. *)
Theorem entering_only_adds_directories p s s1 :
  enter p s = (Ok tt, s1) →
  (∀ k n, fs (st_world s) !! k = Some n → fs (st_world s1) !! k = Some n) ∧
  (∀ k, fs (st_world s) !! k = None →
        fs (st_world s1) !! k = None ∨ fs (st_world s1) !! k = Some Dir) ∧
  node_at (fs (st_world s1)) (cwd (st_world s1)) = Some Dir ∧
  st_trace s1 = st_trace s ++ [EvChdir (cwd (st_world s1))].
Proof.
intros (_ & Hg & Hd & Htr)%enter_spec. split; [|split; [|done]].
- intros k n Hk. eapply lookup_weaken; [done|]. by apply grown_sub.
- intros k Hk.
  destruct (decide (fs (st_world s1) !! k = fs (st_world s) !! k)) as [E|Hne].
  + left. by rewrite E.
  + right. by destruct (Hg _ Hne).
Qed.

End Existing.

(** ** What execute does and does not do *)

Section Conduct.
Context {D : Dargs} {P : Pathlib} {T : FpTask}.
Implicit Types (s : state).

Lemma link_opt_input_files_calls files s res s' :
  link_opt_input_files files s = (res, s') →
  run_task_calls (st_trace s') = run_task_calls (st_trace s).
Proof.
revert s. induction files as [|r files IH]; intros s.
- simpl. unfold_m. by intros [= _ <-].
- rewrite link_opt_input_files_cons. destruct (isfile _ _); [|by apply IH].
  unfold mbind, M_bind.
  destruct (symlink _ _ s) as [[[]|] s1] eqn:Hs;
    apply symlink_calls in Hs; [|by intros [= _ <-]].
  intros H%IH. congruence.
Qed.

Lemma staged_run_calls ip rc rs os s1 res s2 :
  staged_run ip rc rs os s1 = (res, s2) →
  match res with
  | Ok _ => run_task_calls (st_trace s2) = S (run_task_calls (st_trace s1))
  | Raise _ =>
      (run_task_calls (st_trace s2) ≤ S (run_task_calls (st_trace s1)))%nat
  end.
Proof.
unfold staged_run. unfold mbind at 1. unfold M_bind at 1.
destruct (link_input_files rs s1) as [[[]|e] sa] eqn:Ha;
  apply link_input_files_calls in Ha.
2:{ intros [= <- <-]. lia. }
unfold mbind at 1. unfold M_bind at 1.
destruct (link_opt_input_files os sa) as [[[]|e] sb] eqn:Hb;
  apply link_opt_input_files_calls in Hb.
2:{ intros [= <- <-]. lia. }
unfold call_run_task. destruct (run_task _ _ _ _ _ _) as [r0 w'].
intros [= <- <-]. simpl.
assert (run_task_calls
          (st_trace sb ++ [EvRunTask (ip_backward_dir_name ip) (ip_log_name ip)
                             (ip_backward_list ip) rc (ip_optional_input ip)])
        = S (run_task_calls (st_trace s1))) as ->.
{ rewrite run_task_calls_app, Hb, Ha. unfold run_task_calls. simpl. lia. }
by destruct r0; [|lia].
Qed.

(** X4: [execute] calls [run_task] once when it returns, and at most
    once when it raises. *)
Theorem execute_calls_run_task_once ip s r s' :
  execute ip s = (r, s') →
  (run_task_calls (st_trace s') ≤ S (run_task_calls (st_trace s)))%nat ∧
  (∀ out, r = Ok out →
          run_task_calls (st_trace s') = S (run_task_calls (st_trace s))).
Proof.
rewrite execute_prepare.
destruct (prepare ip s) as [[[[rc rs] os]|e] s0] eqn:Hp;
  pose proof (prepare_state _ _ _ _ Hp) as ->.
2:{ intros [= <- <-]. split; [lia|done]. }
unfold mbind, M_bind.
destruct (enter (Path (ip_task_name ip)) s) as [[[]|e] s1] eqn:He.
2:{ eapply set_directory_not_entered in He as (e' & s2 & -> & Hc).
    intros [= <- <-]. split; [lia|done]. }
rewrite (set_directory_enter _ _ _ _ He).
pose proof (enter_spec _ _ _ He) as (_ & _ & _ & Htr).
assert (run_task_calls (st_trace s1) = run_task_calls (st_trace s)) as Hc1.
{ rewrite Htr. calls_arith. }
destruct (staged_run ip rc rs os s1) as [res s2] eqn:Hrun.
apply staged_run_calls in Hrun.
destruct (leave _ _) as [r' s3] eqn:Hl.
apply leave_calls in Hl as [Hc3 Hok].
destruct r' as [d|e]; intros [= <- <-].
- specialize (Hok _ eq_refl) as ->. split; [lia|]. intros _ _. lia.
- split; [|done]. destruct res; lia.
Qed.

(** X5: a [run] entry that is [None] is the same as an empty mapping. *)
Theorem execute_null_run_is_empty ip (config : gmap string pyval) s :
  execute (with_config ip (<["run" := PNone]> config)) s
  = execute (with_config ip (<["run" := PDict []]> config)) s.
Proof.
unfold execute, getitem, with_config. cbn [ip_config]. unfold_m.
by rewrite !lookup_insert_eq.
Qed.

(** X6: a failure before the [with] statement (no ["run"] entry, a
    configuration that does not normalise, a name that [resolve] raises
    on, no [optional_artifact]) comes out of [execute] as it is, with the
    file system, the working directory and the trace untouched. *)
Theorem execute_unprepared ip s e s0 :
  prepare ip s = (Raise e, s0) → execute ip s = (Raise e, s).
Proof.
intros Hp. pose proof (prepare_state _ _ _ _ Hp) as ->.
by rewrite execute_prepare, Hp.
Qed.

Lemma symlink_sub p r s s' :
  symlink p r s = (Ok tt, s') →
  fs (st_world s) ⊆ fs (st_world s') ∧ cwd (st_world s') = cwd (st_world s).
Proof.
unfold symlink, writes, symlink_to. intros H.
destruct (lstat (st_world s) p) as [| q |] eqn:Hl; simplify_eq. simpl.
split; [|done]. apply insert_subseteq. by apply walk_Missing in Hl as [? _].
Qed.

Lemma link_input_files_sub files s s' :
  link_input_files files s = (Ok tt, s') →
  fs (st_world s) ⊆ fs (st_world s') ∧ cwd (st_world s') = cwd (st_world s).
Proof.
revert s. induction files as [|r files IH]; intros s.
- simpl. unfold_m. by intros [= <-].
- rewrite link_input_files_cons. destruct (isfile _ _); [|done].
  unfold mbind, M_bind.
  destruct (symlink _ _ s) as [[[]|] s1] eqn:Hs; [|done].
  apply symlink_sub in Hs as [Hs Hc]. intros [Hs' Hc']%IH.
  split; [by etrans|congruence].
Qed.

Lemma link_opt_input_files_sub files s s' :
  link_opt_input_files files s = (Ok tt, s') →
  fs (st_world s) ⊆ fs (st_world s') ∧ cwd (st_world s') = cwd (st_world s).
Proof.
revert s. induction files as [|r files IH]; intros s.
- simpl. unfold_m. by intros [= <-].
- rewrite link_opt_input_files_cons. destruct (isfile _ _); [|by apply IH].
  unfold mbind, M_bind.
  destruct (symlink _ _ s) as [[[]|] s1] eqn:Hs; [|done].
  apply symlink_sub in Hs as [Hs Hc]. intros [Hs' Hc']%IH.
  split; [by etrans|congruence].
Qed.

(** X7: staging never removes or replaces an entry.  When both loops
    succeed, [run_task] is called in the task directory, over a file
    system in which every entry that was there before [execute] is still
    there, unchanged. *)
Theorem staging_keeps_entries ip rc rs os s s1 s2 s3 :
  enter (Path (ip_task_name ip)) s = (Ok tt, s1) →
  link_input_files rs s1 = (Ok tt, s2) →
  link_opt_input_files os s2 = (Ok tt, s3) →
  staged_run ip rc rs os s1 =
    call_run_task (ip_backward_dir_name ip) (ip_log_name ip)
      (ip_backward_list ip) rc (ip_optional_input ip) s3 ∧
  cwd (st_world s3) = cwd (st_world s1) ∧
  ∀ k n, fs (st_world s) !! k = Some n → fs (st_world s3) !! k = Some n.
Proof.
intros He H2 H3. split; [|split].
- unfold staged_run. unfold mbind at 1. unfold M_bind at 1. rewrite H2.
  unfold mbind at 1. unfold M_bind at 1. by rewrite H3.
- apply link_input_files_sub in H2 as [_ ?].
  apply link_opt_input_files_sub in H3 as [_ ?]. congruence.
- pose proof (enter_spec _ _ _ He) as (_ & Hg%grown_sub & _).
  apply link_input_files_sub in H2 as [Hs2 _].
  apply link_opt_input_files_sub in H3 as [Hs3 _].
  intros k n Hk. eapply lookup_weaken; [exact Hk|].
  etrans; [exact Hg|]. etrans; [exact Hs2|exact Hs3].
Qed.

Lemma link_input_files_same_name m1 S files s i j (r r' : path) :
  staging m1 S (st_world s) → Forall (Forall valid_name) files →
  files !! i = Some r → files !! j = Some r' → (i < j)%nat →
  is_file m1 r → is_file m1 r' → name r = name r' →
  ∃ e s', link_input_files files s = (Raise e, s') ∧
          run_task_calls (st_trace s') = run_task_calls (st_trace s).
Proof.
intros Hst Hcl Hi Hj Hlt Hf Hf' Hname. revert s i j Hst Hi Hj Hlt.
induction Hcl as [|r0 files Hr0 Hcl IH]; intros s i j Hst Hi Hj Hlt; [done|].
rewrite link_input_files_cons.
destruct (isfile _ _) eqn:Hcur; [|by eauto].
rewrite (link_present m1 S) by done.
destruct (fs (st_world s) !! (S ++ [name r0])) eqn:Hfresh; [by eauto|].
assert (staging m1 S
          {| fs := <[S ++ [name r0] := Link r0]> (fs (st_world s));
             cwd := cwd (st_world s) |}) as Hst'.
{ apply staging_link; [done|by apply isfile_is_file|done]. }
set (s1 := {| st_world :=
                {| fs := <[S ++ [name r0] := Link r0]> (fs (st_world s));
                   cwd := cwd (st_world s) |};
              st_trace := st_trace s ++ [EvSymlink (S ++ [name r0]) r0] |}).
assert (run_task_calls (st_trace s1) = run_task_calls (st_trace s)) as Hc1.
{ unfold s1. simpl. calls_arith. }
destruct j as [|j]; [lia|]. destruct i as [|i].
- injection Hi as ->. simpl in Hj.
  destruct (link_input_files_taken m1 S files r' s1) as (e & s' & -> & Htr).
  + exact Hst'.
  + exact Hcl.
  + by eapply list_elem_of_lookup_2.
  + exact Hf'.
  + simpl. rewrite <- Hname, lookup_insert_eq. by eexists.
  + exists e, s'. split; [done|]. congruence.
- simpl in Hi, Hj.
  destruct (IH s1 i j Hst' Hi Hj) as (e & s' & -> & Htr); [lia|].
  exists e, s'. split; [done|]. congruence.
Qed.

(** X8: two mandatory files that are both there and have the same base
    name cannot both be linked: [execute] raises, and [run_task] is not
    called. *)
Theorem execute_same_base_name ip s rc rs os s0 i j (r r' : path) :
  wf_fs (fs (st_world s)) →
  prepare ip s = (Ok (rc, rs, os), s0) →
  rs !! i = Some r → rs !! j = Some r' → (i < j)%nat →
  file_at (fs (st_world s)) r = true →
  file_at (fs (st_world s)) r' = true →
  name r = name r' →
  ∃ e s', execute ip s = (Raise e, s') ∧
          run_task_calls (st_trace s') = run_task_calls (st_trace s).
Proof.
intros Hwf Hp Hi Hj Hlt Hf Hf' Hname.
pose proof (prepare_state _ _ _ _ Hp) as ->.
destruct (prepare_spec _ _ _ _ _ _ Hwf Hp) as (Hcrs & _ & _).
rewrite execute_prepare, Hp. unfold mbind, M_bind.
destruct (enter (Path (ip_task_name ip)) s) as [[[]|e] s1] eqn:He.
2:{ eapply set_directory_not_entered in He as (e' & s' & -> & ?).
    by eauto. }
rewrite (set_directory_enter _ _ _ _ He).
pose proof (enter_spec _ _ _ He) as (_ & Hg & _ & Htr).
edestruct (link_input_files_same_name (fs (st_world s1))
             (cwd (st_world s1)) rs s1 i j r r') as (e & s2 & Hl & Hc);
  try done.
{ by eapply enter_staging. }
{ apply file_at_is_file in Hf. eapply is_file_mono; [|done].
  by apply grown_sub. }
{ apply file_at_is_file in Hf'. eapply is_file_mono; [|done].
  by apply grown_sub. }
unfold staged_run, mbind, M_bind. rewrite Hl.
destruct (leave_raise (A:=string) (cwd (st_world s)) e s2)
  as (e' & s3 & -> & Hc').
exists e', s3. split; [done|]. rewrite Hc', Hc, Htr. calls_arith.
Qed.

Lemma leave_cwd {A} c0 (out : result A * state) (r' : result A) s' :
  leave c0 out = (r', s') →
  stat (st_world s') (abs c0) = Found c0 Dir →
  cwd (st_world s') = c0.
Proof.
destruct out as [r s2]. unfold leave. intros H Hst.
assert (stat (st_world s2) (abs c0) = Found c0 Dir) as Hst2.
{ destruct (chdir _ s2) as [[[]|e] s3] eqn:Hb; simplify_eq;
    erewrite <- stat_abs_fs; try exact Hst; by apply chdir_fs in Hb. }
rewrite (chdir_abs_Found _ _ Hst2) in H. by simplify_eq.
Qed.

Lemma set_directory_cwd {A} p (body : M A) s (r : result A) s' :
  set_directory p body s = (r, s') →
  stat (st_world s') (abs (cwd (st_world s)))
  = Found (cwd (st_world s)) Dir →
  cwd (st_world s') = cwd (st_world s).
Proof.
unfold set_directory, tries. intros H Hst.
destruct (os_getcwd (st_world s)) as [c0|e0] eqn:Hg; [|by simplify_eq].
assert (c0 = cwd (st_world s)) as ->.
{ unfold os_getcwd in Hg. by repeat break_match_hyp; simplify_eq. }
destruct (mkdir_p p s) as [[[]|e] s0] eqn:Hmk.
2:{ simplify_eq. by eapply mkdir_p_cwd. }
eapply (leave_cwd _ ((chdir p ≫= λ _, body) s0)); [|exact Hst].
unfold leave. exact H.
Qed.

(** X9: [execute] as a whole gives the working directory back: whatever
    it returns or raises, if the directory the process came from is
    still a directory at its location, the process is in it again. *)
Theorem execute_restores_cwd ip s (r : result PurePath) s' :
  execute ip s = (r, s') →
  stat (st_world s') (abs (cwd (st_world s)))
  = Found (cwd (st_world s)) Dir →
  cwd (st_world s') = cwd (st_world s).
Proof.
rewrite execute_prepare.
destruct (prepare ip s) as [[[[rc rs] os]|e] s0] eqn:Hp;
  pose proof (prepare_state _ _ _ _ Hp) as ->; [|by intros [= _ <-]].
unfold mbind, M_bind.
destruct (set_directory _ _ s) as [[d|e] s3] eqn:Hsd;
  intros [= _ <-] Hst; by eapply set_directory_cwd.
Qed.

End Conduct.

(** ** The further properties at concrete inputs *)

Section MoreInstances.
Import FlatSchema Pathlib39 Examples.

Ltac by_computing := vm_compute; reflexivity.
Ltac by_deciding := apply (bool_decide_unpack _); vm_compute; reflexivity.

#[local] Abbreviation POSCAR := ["w"; "in"; "POSCAR"].
#[local] Abbreviation EXTRA := ["w"; "in"; "extra.json"].
#[local] Abbreviation TASKDIR := ["w"; "task.000"].

(** X1, witness: the task directory is there already. *)
Lemma set_directory_existing_witness :
  let s := start world_made in
  let p := Path "task.000" in
  os_getcwd (st_world s) = Ok (cwd (st_world s)) ∧
  stat (st_world s) p = Found TASKDIR Dir ∧
  set_directory p block_failing s =
    leave (cwd (st_world s))
      (block_failing
         {| st_world := {| fs := fs (st_world s); cwd := TASKDIR |};
            st_trace := st_trace s ++ [EvChdir TASKDIR] |}).
Proof.
intros s p.
assert (H1 : os_getcwd (st_world s) = Ok (cwd (st_world s))) by by_computing.
assert (H2 : stat (st_world s) p = Found TASKDIR Dir) by by_computing.
split; [exact H1|]. split; [exact H2|].
exact (set_directory_existing p block_failing s TASKDIR H1 H2).
Defined.


(** X3, witness: a target two levels down, neither of which is there. *)
Lemma entering_only_adds_directories_witness :
  let s := start world_in in
  let p := Path "batch/task.000" in
  let s1 := (enter p s).2 in
  enter p s = (Ok tt, s1) ∧
  (∀ k n, fs (st_world s) !! k = Some n → fs (st_world s1) !! k = Some n) ∧
  (∀ k, fs (st_world s) !! k = None →
        fs (st_world s1) !! k = None ∨ fs (st_world s1) !! k = Some Dir) ∧
  node_at (fs (st_world s1)) (cwd (st_world s1)) = Some Dir ∧
  st_trace s1 = st_trace s ++ [EvChdir (cwd (st_world s1))].
Proof.
intros s p s1.
assert (H1 : enter p s = (Ok tt, s1)) by by_computing.
split; [exact H1|].
exact (entering_only_adds_directories p s s1 H1).
Defined.

(** X4, witness: a run that returns. *)
Lemma execute_calls_run_task_once_witness :
  let ip := input run_null (Some extra_artifact) in
  let s := start world_in in
  let out := @execute dargs pathlib poscar_task ip s in
  @execute dargs pathlib poscar_task ip s = (out.1, out.2) ∧
  (run_task_calls (st_trace out.2) ≤ S (run_task_calls (st_trace s)))%nat ∧
  (∀ o, out.1 = Ok o →
        run_task_calls (st_trace out.2) = S (run_task_calls (st_trace s))).
Proof.
intros ip s out.
assert (H1 : @execute dargs pathlib poscar_task ip s = (out.1, out.2))
  by apply surjective_pairing.
split; [exact H1|].
exact (@execute_calls_run_task_once dargs pathlib poscar_task ip s out.1 out.2 H1).
Defined.

(** X6, witness: the declared default [config = {}]. *)
Lemma execute_unprepared_witness :
  let ip := input ∅ (Some []) in
  let s := start world_in in
  @prepare dargs pathlib poscar_task ip s = (Raise (KeyError "run"), s) ∧
  @execute dargs pathlib poscar_task ip s = (Raise (KeyError "run"), s).
Proof.
intros ip s.
assert (H1 : @prepare dargs pathlib poscar_task ip s = (Raise (KeyError "run"), s))
  by reflexivity.
split; [exact H1|].
exact (@execute_unprepared dargs pathlib poscar_task ip s (KeyError "run") s H1).
Defined.

(** X7, witness: one mandatory and one optional file. *)
Lemma staging_keeps_entries_witness :
  let ip := input run_null (Some extra_artifact) in
  let s := start world_in in
  let rc := PDict [("nproc", PInt 1)] in
  let s1 := (enter (Path (ip_task_name ip)) s).2 in
  let s2 := (link_input_files [POSCAR] s1).2 in
  let s3 := (link_opt_input_files [EXTRA] s2).2 in
  enter (Path (ip_task_name ip)) s = (Ok tt, s1) ∧
  link_input_files [POSCAR] s1 = (Ok tt, s2) ∧
  link_opt_input_files [EXTRA] s2 = (Ok tt, s3) ∧
  @staged_run dargs poscar_task ip rc [POSCAR] [EXTRA] s1 =
    @call_run_task dargs poscar_task (ip_backward_dir_name ip)
      (ip_log_name ip) (ip_backward_list ip) rc (ip_optional_input ip) s3 ∧
  cwd (st_world s3) = cwd (st_world s1) ∧
  ∀ k n, fs (st_world s) !! k = Some n → fs (st_world s3) !! k = Some n.
Proof.
intros ip s rc s1 s2 s3.
assert (H1 : enter (Path (ip_task_name ip)) s = (Ok tt, s1)) by by_computing.
assert (H2 : link_input_files [POSCAR] s1 = (Ok tt, s2)) by by_computing.
assert (H3 : link_opt_input_files [EXTRA] s2 = (Ok tt, s3)) by by_computing.
repeat (split; [assumption|]).
exact (@staging_keeps_entries dargs poscar_task ip rc [POSCAR] [EXTRA]
         s s1 s2 s3 H1 H2 H3).
Defined.

(** X8, witness: [a/POSCAR] and [b/POSCAR]. *)
Lemma execute_same_base_name_witness :
  let ip := input run_null (Some []) in
  let s := start world_twin in
  let rc := PDict [("nproc", PInt 1)] in
  let ra := ["w"; "in"; "a"; "POSCAR"] in
  let rb := ["w"; "in"; "b"; "POSCAR"] in
  wf_fs (fs (st_world s)) ∧
  @prepare dargs pathlib twin_task ip s = (Ok (rc, [ra; rb], []), s) ∧
  [ra; rb] !! 0%nat = Some ra ∧
  [ra; rb] !! 1%nat = Some rb ∧
  (0 < 1)%nat ∧
  file_at (fs (st_world s)) ra = true ∧
  file_at (fs (st_world s)) rb = true ∧
  name ra = name rb ∧
  ∃ e s', @execute dargs pathlib twin_task ip s = (Raise e, s') ∧
          run_task_calls (st_trace s') = run_task_calls (st_trace s).
Proof.
intros ip s rc ra rb.
assert (H1 : wf_fs (fs (st_world s))) by by_deciding.
assert (H2 : @prepare dargs pathlib twin_task ip s = (Ok (rc, [ra; rb], []), s))
  by by_computing.
assert (H3 : [ra; rb] !! 0%nat = Some ra) by reflexivity.
assert (H4 : [ra; rb] !! 1%nat = Some rb) by reflexivity.
assert (H5 : (0 < 1)%nat) by lia.
assert (H6 : file_at (fs (st_world s)) ra = true) by by_computing.
assert (H7 : file_at (fs (st_world s)) rb = true) by by_computing.
assert (H8 : name ra = name rb) by reflexivity.
repeat (split; [assumption|]).
exact (@execute_same_base_name dargs pathlib twin_task ip s rc [ra; rb] [] s
         0%nat 1%nat ra rb H1 H2 H3 H4 H5 H6 H7 H8).
Defined.

(** X9, witness: a run whose [run_task] fails. *)
Lemma execute_restores_cwd_witness :
  let ip := input run_null (Some []) in
  let s := start world_in in
  let out := @execute dargs pathlib failing_task ip s in
  @execute dargs pathlib failing_task ip s = (out.1, out.2) ∧
  stat (st_world out.2) (abs (cwd (st_world s)))
  = Found (cwd (st_world s)) Dir ∧
  cwd (st_world out.2) = cwd (st_world s).
Proof.
intros ip s out.
assert (H1 : @execute dargs pathlib failing_task ip s = (out.1, out.2))
  by apply surjective_pairing.
assert (H2 : stat (st_world out.2) (abs (cwd (st_world s)))
             = Found (cwd (st_world s)) Dir) by by_computing.
split; [exact H1|]. split; [exact H2|].
exact (@execute_restores_cwd dargs pathlib failing_task ip s out.1 out.2 H1 H2).
Defined.

End MoreInstances.
